(** * Z80 disassembler text formatting (z80.cpp)

    A shallow embedding of the name tables, of [output_buff] and of
    [disassembler_base::on_format_impl], followed by the properties of
    the formatting mini-language.

    Conventions of the embedding.
    - [enum class] types are inductive types, each in a module named after
      the enumeration, so that [reg.at_hl] reads like [reg::at_hl].
    - [const char *] values are [string]s; the terminating NUL is implicit
      at the end of a [string], and every loop that scans a C string stops
      at the first NUL character it meets, as the C++ loops do.
    - [unsigned], [int], [fast_u8] and [fast_u16] values are [Z]; the
      conversions to [unsigned] and [int] are written out as 32-bit
      wrap-around.
    - [char buff[max_size]] is a [list ascii] updated in place with
      stdpp's list insert; its initial contents are indeterminate and are
      an explicit argument of the constructor.
    - [assert] is enabled: a failed assertion is the outcome
      [AssertionFailed].  Reading an argument of the wrong type, or past
      the end of the argument array, is the outcome [Undefined]. *)

From Stdlib Require Import ZArith Lia String Ascii List Bool.
From stdpp Require Import base list.

Open Scope Z_scope.

(** ** Enumerations *)

Module reg.
Inductive t := b | c | d | e | h | l | at_hl | a.
End reg.

Module regp.
Inductive t := bc | de | hl | sp.
End regp.

Module index_regp.
Inductive t := hl | ix | iy.
End index_regp.

Module alu.
Inductive t := add | adc | sub | sbc | and_a | xor_a | or_a | cp.
End alu.

Module block_ld.
Inductive t := ldi | ldd | ldir | lddr.
End block_ld.

Module condition.
Inductive t := nz | z | nc | c | po | pe | p | m.
End condition.

#[global] Instance reg_eq_dec : EqDecision reg.t.
Proof. solve_decision. Defined.
#[global] Instance index_regp_eq_dec : EqDecision index_regp.t.
Proof. solve_decision. Defined.
#[global] Instance alu_eq_dec : EqDecision alu.t.
Proof. solve_decision. Defined.

(** ** Name tables

    The three overloads of [get_reg_name] get distinct names. *)

Definition get_reg_name (r : reg.t) : string :=
  match r with
  | reg.b => "b"
  | reg.c => "c"
  | reg.d => "d"
  | reg.e => "e"
  | reg.h => "h"
  | reg.l => "l"
  | reg.at_hl => "(hl)"
  | reg.a => "a"
  end.

Definition get_reg_name_irp (irp : index_regp.t) : string :=
  match irp with
  | index_regp.hl => "hl"
  | index_regp.ix => "ix"
  | index_regp.iy => "iy"
  end.

Definition get_reg_name_rp (rp : regp.t) (irp : index_regp.t) : string :=
  match rp with
  | regp.bc => "bc"
  | regp.de => "de"
  | regp.hl => get_reg_name_irp irp
  | regp.sp => "sp"
  end.

Definition get_mnemonic (k : alu.t) : string :=
  match k with
  | alu.add => "add"
  | alu.adc => "adc"
  | alu.sub => "sub"
  | alu.sbc => "sbc"
  | alu.and_a => "and"
  | alu.xor_a => "xor"
  | alu.or_a => "or"
  | alu.cp => "cp"
  end.

Definition get_mnemonic_block_ld (k : block_ld.t) : string :=
  match k with
  | block_ld.ldi => "ldi"
  | block_ld.ldd => "ldd"
  | block_ld.ldir => "ldir"
  | block_ld.lddr => "lddr"
  end.

Definition is_two_operand_alu_instr (k : alu.t) : bool :=
  bool_decide (k = alu.add) || bool_decide (k = alu.adc)
  || bool_decide (k = alu.sbc).

Definition get_index_reg_name (irp : index_regp.t) : string :=
  match irp with
  | index_regp.hl => "hl"
  | index_regp.ix => "ix"
  | index_regp.iy => "iy"
  end.

Definition get_condition_name (cc : condition.t) : string :=
  match cc with
  | condition.nz => "nz"
  | condition.z => "z"
  | condition.nc => "nc"
  | condition.c => "c"
  | condition.po => "po"
  | condition.pe => "pe"
  | condition.p => "p"
  | condition.m => "m"
  end.

(** ** Machine integers *)

Definition to_unsigned (n : Z) : Z := n mod 2 ^ 32.

Definition to_int (n : Z) : Z := (n + 2 ^ 31) mod 2 ^ 32 - 2 ^ 31.

(** Modelled from the spec: [sign_extend8] is declared in z80.h, which is
    not part of the sources at hand.  The spec calls its argument "a signed
    byte offset" and its result the "signed displacement": the low eight
    bits of the argument read as a two's complement number. *)
Definition sign_extend8 (n : Z) : Z :=
  let b := n mod 256 in if b <? 128 then b else b - 256.

(** ** Outcomes *)

Inductive outcome (A : Type) : Type :=
| Done (x : A)
| AssertionFailed
| Undefined.

Arguments Done {A} x.
Arguments AssertionFailed {A}.
Arguments Undefined {A}.

Definition obind {A B} (m : outcome A) (k : A -> outcome B) : outcome B :=
  match m with
  | Done x => k x
  | AssertionFailed => AssertionFailed
  | Undefined => Undefined
  end.

(** ** Characters *)

Definition NUL : ascii := zero.

Definition is_nul (c : ascii) : bool := Ascii.eqb c NUL.

(** The characters of a literal, as a list. *)
Definition lit (s : string) : list ascii := list_ascii_of_string s.

(** ** std::snprintf

    Only the three conversions that z80.cpp uses.  Digits are produced
    least significant first, as a do-while loop dividing by the base; the
    fuel is the number of digits a 32-bit value can have. *)

Definition digit_char (d : Z) : ascii :=
  match String.get (Z.to_nat d) "0123456789abcdef" with
  | Some c => c
  | None => "?"%char
  end.

Fixpoint utoa (base : Z) (fuel : nat) (n : Z) (acc : list ascii) : list ascii :=
  match fuel with
  | O => acc
  | S fuel' =>
      let acc' := digit_char (n mod base) :: acc in
      if n / base =? 0 then acc' else utoa base fuel' (n / base) acc'
  end.

Definition zero_pad (width : nat) (digits : list ascii) : list ascii :=
  replicate (width - length digits)%nat "0"%char ++ digits.

(** "%0<width>x" applied to an [unsigned]. *)
Definition conv_0x (width : nat) (n : Z) : list ascii :=
  zero_pad width (utoa 16 8 n []).

(** "%+d" applied to an [int]. *)
Definition conv_plus_d (d : Z) : list ascii :=
  (if d <? 0 then "-"%char else "+"%char) :: utoa 10 10 (Z.abs d) [].

(** [snprintf(pad, size, ...)] stores at most [size - 1] characters of the
    converted text and terminates them. *)
Definition snprintf (size : nat) (text : list ascii) : string :=
  string_of_list_ascii (take (size - 1) text).

(** ** output_buff *)

Definition max_size : Z := 32.

Record output_buff := { size : Z; buff : list ascii }.

(** The constructor sets [size] and leaves [buff] as it finds it. *)
Definition output_buff_new (mem : list ascii) : output_buff :=
  {| size := 0; buff := mem |}.

Definition get_buff (o : output_buff) : list ascii := buff o.

Definition append (c : ascii) (o : output_buff) : outcome output_buff :=
  if size o <? max_size
  then Done {| size := to_unsigned (size o + 1);
               buff := <[Z.to_nat (size o) := c]> (buff o) |}
  else AssertionFailed.

Fixpoint append_str (str : string) (o : output_buff) : outcome output_buff :=
  match str with
  | EmptyString => Done o
  | String c p =>
      if is_nul c then Done o
      else obind (append c o) (append_str p)
  end.

Definition append_u8 (n : Z) (o : output_buff) : outcome output_buff :=
  let pad := snprintf 32 (lit "0x" ++ conv_0x 2 (to_unsigned n)) in
  append_str pad o.

Definition append_u16 (n : Z) (o : output_buff) : outcome output_buff :=
  let pad := snprintf 32 (lit "0x" ++ conv_0x 4 (to_unsigned n)) in
  append_str pad o.

Definition append_disp (d : Z) (o : output_buff) : outcome output_buff :=
  let pad := snprintf 32 (conv_plus_d (to_int d)) in
  append_str pad o.

(** ** The argument array

    [const void *args[]] points to values of different types; [get_arg<T>]
    reads the next one as a [T] and advances.  An element remembers the
    type it was stored with, and reading it at another type is undefined.

    [fast_u8] and [fast_u16] are typedefs of z80.h, which is not among the
    sources, so their widths are not known here: an element carries the
    value as a [Z], and every property that depends on the value being a
    byte or a 16-bit word takes that range as a hypothesis. *)

Inductive arg :=
| arg_alu (k : alu.t)
| arg_reg (r : reg.t)
| arg_index_regp (irp : index_regp.t)
| arg_regp (rp : regp.t)
| arg_fast_u8 (n : Z)
| arg_fast_u16 (nn : Z)
| arg_condition (cc : condition.t)
| arg_int (d : Z)
| arg_block_ld (k : block_ld.t).

Definition as_alu (v : arg) := match v with arg_alu k => Some k | _ => None end.
Definition as_reg (v : arg) := match v with arg_reg r => Some r | _ => None end.
Definition as_index_regp (v : arg) :=
  match v with arg_index_regp irp => Some irp | _ => None end.
Definition as_regp (v : arg) := match v with arg_regp rp => Some rp | _ => None end.
Definition as_fast_u8 (v : arg) := match v with arg_fast_u8 n => Some n | _ => None end.
Definition as_fast_u16 (v : arg) :=
  match v with arg_fast_u16 nn => Some nn | _ => None end.
Definition as_condition (v : arg) :=
  match v with arg_condition cc => Some cc | _ => None end.
Definition as_int (v : arg) := match v with arg_int d => Some d | _ => None end.
Definition as_block_ld (v : arg) :=
  match v with arg_block_ld k => Some k | _ => None end.

(** ** The state of one formatting call: the argument cursor and [out] *)

Record fmt_state := { args : list arg; out : output_buff }.

Definition M (A : Type) : Type := fmt_state -> outcome (A * fmt_state).

Definition ret {A} (x : A) : M A := fun st => Done (x, st).

Definition bind {A B} (m : M A) (k : A -> M B) : M B :=
  fun st =>
    match m st with
    | Done (x, st') => k x st'
    | AssertionFailed => AssertionFailed
    | Undefined => Undefined
    end.

Notation "'let*' x ':=' m 'in' k" := (bind m (fun x => k))
  (at level 10, x name, m at level 100, k at level 200).
Notation "m ';;;' k" := (bind m (fun _ => k))
  (at level 100, k at level 200, right associativity).

Definition get_arg {T} (as_T : arg -> option T) : M T :=
  fun st =>
    match args st with
    | [] => Undefined
    | v :: rest =>
        match as_T v with
        | Some value => Done (value, {| args := rest; out := out st |})
        | None => Undefined
        end
    end.

(** A method call [out.f(...)]. *)
Definition on_out (f : output_buff -> outcome output_buff) : M unit :=
  fun st =>
    match f (out st) with
    | Done o => Done (tt, {| args := args st; out := o |})
    | AssertionFailed => AssertionFailed
    | Undefined => Undefined
    end.

(** ** disassembler_base

    [on_output] is the virtual method a concrete disassembler overrides; it
    receives the address of the buffer, here the whole array. *)

Class disassembler (D : Type) := on_output : list ascii -> D -> D.

(** The body of the [switch] of [on_format_impl], for one character. *)
Definition on_format_char (c : ascii) : M unit :=
  if Ascii.eqb c "A" then
    let* k := get_arg as_alu in
    on_out (append_str (get_mnemonic k));;;
    if is_two_operand_alu_instr k
    then on_out (append_str " a,")
    else ret tt
  else if Ascii.eqb c "R" then
    let* r := get_arg as_reg in
    let* irp := get_arg as_index_regp in
    let* d := get_arg as_fast_u8 in
    if negb (bool_decide (r = reg.at_hl)) || bool_decide (irp = index_regp.hl)
    then on_out (append_str (get_reg_name r))
    else
      on_out (append "(");;;
      on_out (append_str (get_index_reg_name irp));;;
      on_out (append_disp (sign_extend8 d));;;
      on_out (append ")")
  else if Ascii.eqb c "P" then
    let* rp := get_arg as_regp in
    let* irp := get_arg as_index_regp in
    on_out (append_str (get_reg_name_rp rp irp))
  else if Ascii.eqb c "N" then
    let* n := get_arg as_fast_u8 in
    on_out (append_u8 n)
  else if Ascii.eqb c "W" then
    let* nn := get_arg as_fast_u16 in
    on_out (append_u16 nn)
  else if Ascii.eqb c "C" then
    let* cc := get_arg as_condition in
    on_out (append_str (get_condition_name cc))
  else if Ascii.eqb c "D" then
    let* d := get_arg as_int in
    on_out (append "$");;;
    on_out (append_disp d)
  else if Ascii.eqb c "L" then
    let* k := get_arg as_block_ld in
    on_out (append_str (get_mnemonic_block_ld k))
  else
    on_out (append c).

(** The [for] loop of [on_format_impl]. *)
Fixpoint scan (fmt : string) : M unit :=
  match fmt with
  | EmptyString => ret tt
  | String c p =>
      if is_nul c then ret tt
      else on_format_char c;;; scan p
  end.

Definition on_format_impl `{disassembler D}
    (fmt : string) (args : list arg) (mem : list ascii) (self : D) : outcome D :=
  match scan fmt {| args := args; out := output_buff_new mem |} with
  | Done (_, st) =>
      match append NUL (out st) with
      | Done o => Done (on_output (get_buff o) self)
      | AssertionFailed => AssertionFailed
      | Undefined => Undefined
      end
  | AssertionFailed => AssertionFailed
  | Undefined => Undefined
  end.

(** ** Reading the buffer back, and a disassembler that records its lines *)

(** The characters of a NUL-terminated array, as [on_output] reads them. *)
Fixpoint c_str (a : list ascii) : list ascii :=
  match a with
  | [] => []
  | c :: a' => if is_nul c then [] else c :: c_str a'
  end.

(** The characters of a C string. *)
Definition c_chars (s : string) : list ascii := c_str (list_ascii_of_string s).

(** A disassembler whose [on_output] copies each line it is given to the
    end of a log. *)
#[global] Instance recorder : disassembler (list (list ascii)) :=
  fun line log => log ++ [c_str line].

(** ** Ghost state of [output_buff] *)

(** The part of the array written so far. *)
Definition written (o : output_buff) : list ascii :=
  take (Z.to_nat (size o)) (buff o).

(** The class invariant: the array has [max_size] elements and the write
    position is within it. *)
Definition wf (o : output_buff) : Prop :=
  0 <= size o <= max_size /\ Z.of_nat (length (buff o)) = max_size.

(** Appending the characters of a list one by one. *)
Fixpoint emit (l : list ascii) (o : output_buff) : outcome output_buff :=
  match l with
  | [] => Done o
  | c :: l' => obind (append c o) (emit l')
  end.

(** [emits m l]: the statement [m] appends the characters [l] to [out],
    through [append], and does nothing else. *)
Definition emits (m : M unit) (l : list ascii) : Prop :=
  forall st, m st = on_out (emit l) st.

(** ** The rendering rules, as the specification words them *)

Module Spec.

Definition directives : list ascii := lit "ARPNWCDL".

Definition is_directive (c : ascii) : bool :=
  existsb (Ascii.eqb c) directives.

(** "is two-operand" holds exactly for add, adc and sbc. *)
Definition two_operand (k : alu.t) : bool :=
  match k with
  | alu.add | alu.adc | alu.sbc => true
  | _ => false
  end.

Definition alu_text (k : alu.t) : list ascii :=
  lit (get_mnemonic k) ++ (if two_operand k then lit " a," else []).

Definition register_text (r : reg.t) (irp : index_regp.t) (d : Z) : list ascii :=
  match r with
  | reg.at_hl =>
      match irp with
      | index_regp.hl => lit "(hl)"
      | _ => lit "(" ++ lit (get_index_reg_name irp)
               ++ conv_plus_d (sign_extend8 d) ++ lit ")"
      end
  | _ => lit (get_reg_name r)
  end.

Definition pair_text (rp : regp.t) (irp : index_regp.t) : list ascii :=
  match rp with
  | regp.hl => lit (get_index_reg_name irp)
  | regp.bc => lit "bc"
  | regp.de => lit "de"
  | regp.sp => lit "sp"
  end.

Definition hex_text (width : nat) (n : Z) : list ascii :=
  lit "0x" ++ conv_0x width (to_unsigned n).

(** The text of one character of the format string and the arguments
    left after it; [None] when the next arguments are not what the
    directive consumes. *)
Definition directive_text (c : ascii) (args : list arg)
    : option (list ascii * list arg) :=
  if Ascii.eqb c "A" then
    match args with
    | arg_alu k :: rest => Some (alu_text k, rest)
    | _ => None
    end
  else if Ascii.eqb c "R" then
    match args with
    | arg_reg r :: arg_index_regp irp :: arg_fast_u8 d :: rest =>
        Some (register_text r irp d, rest)
    | _ => None
    end
  else if Ascii.eqb c "P" then
    match args with
    | arg_regp rp :: arg_index_regp irp :: rest => Some (pair_text rp irp, rest)
    | _ => None
    end
  else if Ascii.eqb c "N" then
    match args with
    | arg_fast_u8 n :: rest => Some (hex_text 2 n, rest)
    | _ => None
    end
  else if Ascii.eqb c "W" then
    match args with
    | arg_fast_u16 nn :: rest => Some (hex_text 4 nn, rest)
    | _ => None
    end
  else if Ascii.eqb c "C" then
    match args with
    | arg_condition cc :: rest => Some (lit (get_condition_name cc), rest)
    | _ => None
    end
  else if Ascii.eqb c "D" then
    match args with
    | arg_int d :: rest => Some (lit "$" ++ conv_plus_d (to_int d), rest)
    | _ => None
    end
  else if Ascii.eqb c "L" then
    match args with
    | arg_block_ld k :: rest => Some (lit (get_mnemonic_block_ld k), rest)
    | _ => None
    end
  else Some ([c], args).

(** The line for a format string (its characters before the terminator)
    and an argument stream, and the arguments left over. *)
Fixpoint render (fmt : list ascii) (args : list arg)
    : option (list ascii * list arg) :=
  match fmt with
  | [] => Some ([], args)
  | c :: fmt' =>
      match directive_text c args with
      | Some (t, args') =>
          match render fmt' args' with
          | Some (line, rest) => Some (t ++ line, rest)
          | None => None
          end
      | None => None
      end
  end.

(** Reading digits back: the value of a digit character and of a digit
    string in a base. *)
Definition digit_value (c : ascii) : option Z :=
  let n := Z.of_nat (nat_of_ascii c) in
  if (48 <=? n) && (n <=? 57) then Some (n - 48)
  else if (97 <=? n) && (n <=? 102) then Some (n - 87)
  else None.

Definition is_digit (base : Z) (c : ascii) : bool :=
  match digit_value c with
  | Some v => v <? base
  | None => false
  end.

Definition number_value (base : Z) (digits : list ascii) : Z :=
  fold_left (fun v c => v * base + default 0 (digit_value c)) digits 0.

(** [digits] is [n] in lower-case hexadecimal, zero-padded to [width]
    digits. *)
Definition hex_of (width : nat) (n : Z) (digits : list ascii) : Prop :=
  length digits = width
  /\ Forall (fun c => is_digit 16 c = true) digits
  /\ number_value 16 digits = n.

(** [digits] is [n] in decimal, without padding. *)
Definition decimal_of (n : Z) (digits : list ascii) : Prop :=
  Forall (fun c => is_digit 10 c = true) digits
  /\ number_value 10 digits = n
  /\ if n =? 0 then digits = ["0"%char] else head digits <> Some "0"%char.

(** [text] is [v] in decimal with an explicit leading sign. *)
Definition signed_decimal (v : Z) (text : list ascii) : Prop :=
  exists digits,
    text = (if v <? 0 then "-"%char else "+"%char) :: digits
    /\ decimal_of (Z.abs v) digits.

(** The characters of a format string that are copied as they are. *)
Definition literals (fmt : list ascii) : list ascii :=
  List.filter (fun c => negb (is_directive c)) fmt.

End Spec.

(** The operations of [output_buff] that append, each with the text it is
    asked to append. *)
Inductive append_op : (output_buff -> outcome output_buff) -> list ascii -> Prop :=
| op_append (c : ascii) : append_op (append c) [c]
| op_append_str (str : string) : append_op (append_str str) (c_chars str)
| op_append_u8 (n : Z) : append_op (append_u8 n) (Spec.hex_text 2 n)
| op_append_u16 (nn : Z) : append_op (append_u16 nn) (Spec.hex_text 4 nn)
| op_append_disp (d : Z) : append_op (append_disp d) (conv_plus_d (to_int d)).

(** Two buffers that differ only in the part not yet written. *)
Definition same_text (o1 o2 : output_buff) : Prop :=
  size o1 = size o2 /\ written o1 = written o2.

(** Two runs of a statement that end alike: the same failure, or the
    same arguments left and the same text written. *)
Definition same_outcome (r1 r2 : outcome (unit * fmt_state)) : Prop :=
  match r1, r2 with
  | Done (_, st1), Done (_, st2) =>
      args st1 = args st2 /\ same_text (out st1) (out st2)
      /\ wf (out st1) /\ wf (out st2)
  | AssertionFailed, AssertionFailed => True
  | Undefined, Undefined => True
  | _, _ => False
  end.

(** A format string too long for the buffer and one that just fits. *)
Definition fmt_32 : string := "xxxxxxxxxxxxxxxxxxxxxxxxxxxxxxxx".
Definition fmt_31 : string := "xxxxxxxxxxxxxxxxxxxxxxxxxxxxxxx".

(** Some contents for the array before the call. *)
Definition stale : list ascii := replicate 32 "#"%char.

(** "ld a,(ix-3)" as the decoder asks for it. *)
Definition ld_fmt : string := "ld R,R".
Definition ld_args : list arg :=
  [arg_reg reg.a; arg_index_regp index_regp.ix; arg_fast_u8 0;
   arg_reg reg.at_hl; arg_index_regp index_regp.ix; arg_fast_u8 253].

(** The number of [get_arg] calls in the case of the [switch] that a
    character of the format string selects. *)
Definition arity (c : ascii) : nat :=
  if Ascii.eqb c "R" then 3
  else if Ascii.eqb c "P" then 2
  else if existsb (Ascii.eqb c) (lit "ANWCDL") then 1
  else 0.

(** A format string with a character for each kind of directive, its
    arguments, and the states in which its scan ends, without and with an
    argument too many. *)
Definition mixed_fmt : string := "AR,P;NWCDL".
Definition mixed_args : list arg :=
  [arg_alu alu.sub;
   arg_reg reg.a; arg_index_regp index_regp.iy; arg_fast_u8 128;
   arg_regp regp.sp; arg_index_regp index_regp.ix;
   arg_fast_u8 255; arg_fast_u16 0; arg_condition condition.pe;
   arg_int 0; arg_block_ld block_ld.ldi].

Definition state_after (fmt : string) (a : list arg) : fmt_state :=
  let st0 := {| args := a; out := output_buff_new stale |} in
  match scan fmt st0 with
  | Done (_, st) => st
  | _ => st0
  end.

Definition mixed_state : fmt_state :=
  Eval vm_compute in state_after mixed_fmt mixed_args.
Definition surplus_state : fmt_state :=
  Eval vm_compute in state_after mixed_fmt (mixed_args ++ [arg_int 7]).

(** * Properties *)

(** ** The conversions of snprintf *)

Section Conversions.

Lemma digit_char_not_nul (d : Z) : digit_char d <> NUL.
Proof.
  unfold digit_char. generalize (Z.to_nat d). intros n.
  do 16 (destruct n as [|n]; [discriminate|]).
  destruct n; discriminate.
Qed.

Lemma digit_char_value (d : Z) :
  0 <= d < 16 -> Spec.digit_value (digit_char d) = Some d.
Proof.
  intros Hd.
  assert (Hn : exists n, d = Z.of_nat n /\ (n < 16)%nat).
  { exists (Z.to_nat d). lia. }
  destruct Hn as (n & -> & Hn).
  do 16 (destruct n as [|n]; [reflexivity|]). lia.
Qed.

Lemma digit_char_is_digit (base d : Z) :
  base <= 16 -> 0 <= d < base -> Spec.is_digit base (digit_char d) = true.
Proof.
  intros Hb Hd. unfold Spec.is_digit.
  rewrite digit_char_value by lia. apply Z.ltb_lt. lia.
Qed.

Lemma utoa_acc (base : Z) (fuel : nat) :
  forall n acc, utoa base fuel n acc = utoa base fuel n [] ++ acc.
Proof.
  induction fuel as [|fuel IH]; intros n acc; simpl; [reflexivity|].
  destruct (n / base =? 0); [reflexivity|].
  rewrite IH. rewrite (IH _ [_]). rewrite <- app_assoc. reflexivity.
Qed.

Lemma utoa_length (base : Z) (fuel : nat) :
  forall n acc, (length (utoa base fuel n acc) <= fuel + length acc)%nat.
Proof.
  induction fuel as [|fuel IH]; intros n acc; simpl; [lia|].
  destruct (n / base =? 0); simpl; [lia|].
  specialize (IH (n / base) (digit_char (n mod base) :: acc)). simpl in IH. lia.
Qed.

Lemma utoa_no_nul (base : Z) (fuel : nat) :
  forall n acc, Forall (fun c => c <> NUL) acc ->
                Forall (fun c => c <> NUL) (utoa base fuel n acc).
Proof.
  induction fuel as [|fuel IH]; intros n acc Hacc; simpl; [assumption|].
  assert (Forall (fun c => c <> NUL) (digit_char (n mod base) :: acc))
    by (constructor; [apply digit_char_not_nul | assumption]).
  destruct (n / base =? 0); auto.
Qed.

(** With [k] digits of fuel, a number below [base ^ k] comes out whole
    and takes at most [k] digits. *)
Lemma utoa_short (base : Z) (k : nat) :
  1 < base ->
  forall fuel n, 0 <= n < base ^ Z.of_nat k -> (0 < k <= fuel)%nat ->
                 (length (utoa base fuel n []) <= k)%nat.
Proof.
  intros Hb. induction k as [|k IH]; intros fuel n Hn Hk; [lia|].
  destruct fuel as [|fuel]; [lia|]. simpl.
  destruct (Z.eqb_spec (n / base) 0) as [|Hq]; [simpl; lia|].
  rewrite utoa_acc, length_app. simpl.
  assert (Hdiv : 0 <= n / base < base ^ Z.of_nat k).
  { rewrite Nat2Z.inj_succ, Z.pow_succ_r in Hn by lia.
    split; [apply Z.div_pos; lia|].
    apply Z.div_lt_upper_bound; lia. }
  destruct k as [|k].
  { simpl in Hdiv. lia. }
  specialize (IH fuel (n / base) Hdiv). lia.
Qed.

Lemma number_value_snoc (base : Z) (l : list ascii) (c : ascii) :
  Spec.number_value base (l ++ [c])
  = Spec.number_value base l * base + default 0 (Spec.digit_value c).
Proof. unfold Spec.number_value. rewrite fold_left_app. reflexivity. Qed.

Lemma utoa_value (base : Z) :
  1 < base <= 16 ->
  forall fuel n, 0 <= n < base ^ Z.of_nat fuel ->
                 Spec.number_value base (utoa base fuel n []) = n.
Proof.
  intros Hb. induction fuel as [|fuel IH]; intros n Hn.
  { simpl in *. assert (n = 0) by lia. subst. reflexivity. }
  simpl.
  assert (Hmod : 0 <= n mod base < base) by (apply Z.mod_pos_bound; lia).
  pose proof (Z.div_mod n base ltac:(lia)) as Hdm.
  destruct (Z.eqb_spec (n / base) 0) as [Hq|Hq].
  - unfold Spec.number_value. simpl.
    rewrite digit_char_value by lia. simpl. nia.
  - rewrite utoa_acc, number_value_snoc, digit_char_value by lia.
    rewrite IH; [simpl; nia|].
    rewrite Nat2Z.inj_succ, Z.pow_succ_r in Hn by lia.
    split; [apply Z.div_pos; lia|].
    apply Z.div_lt_upper_bound; lia.
Qed.

Lemma utoa_digits (base : Z) :
  1 < base <= 16 ->
  forall fuel n acc, Forall (fun c => Spec.is_digit base c = true) acc ->
    Forall (fun c => Spec.is_digit base c = true) (utoa base fuel n acc).
Proof.
  intros Hb. induction fuel as [|fuel IH]; intros n acc Hacc; simpl; [assumption|].
  assert (Forall (fun c => Spec.is_digit base c = true)
                 (digit_char (n mod base) :: acc)).
  { constructor; [|assumption]. apply digit_char_is_digit; [lia|].
    apply Z.mod_pos_bound. lia. }
  destruct (n / base =? 0); auto.
Qed.

(** A number printed in decimal has no leading zero, unless it is zero. *)
Lemma utoa_head (base : Z) :
  1 < base <= 16 ->
  forall fuel n, 0 < n < base ^ Z.of_nat fuel ->
    exists c rest, utoa base fuel n [] = c :: rest
                   /\ Spec.digit_value c <> Some 0.
Proof.
  intros Hb. induction fuel as [|fuel IH]; intros n Hn.
  { simpl in Hn. lia. }
  simpl.
  assert (Hmod : 0 <= n mod base < base) by (apply Z.mod_pos_bound; lia).
  pose proof (Z.div_mod n base ltac:(lia)) as Hdm.
  destruct (Z.eqb_spec (n / base) 0) as [Hq|Hq].
  - eexists _, _. split; [reflexivity|].
    rewrite digit_char_value by lia. intros [=]. nia.
  - rewrite utoa_acc.
    destruct (IH (n / base)) as (c & rest & -> & Hc).
    { rewrite Nat2Z.inj_succ, Z.pow_succ_r in Hn by lia.
      assert (0 <= n / base) by (apply Z.div_pos; lia).
      split; [lia|]. apply Z.div_lt_upper_bound; lia. }
    eexists _, _. split; [reflexivity|assumption].
Qed.

Lemma length_zero_pad (width : nat) (digits : list ascii) :
  (length digits <= width)%nat -> length (zero_pad width digits) = width.
Proof.
  intros H. unfold zero_pad. rewrite length_app, length_replicate. lia.
Qed.

Lemma number_value_zero_pad (base : Z) (width : nat) (digits : list ascii) :
  Spec.number_value base (zero_pad width digits)
  = Spec.number_value base digits.
Proof.
  unfold zero_pad, Spec.number_value. rewrite fold_left_app.
  f_equal. induction (width - length digits)%nat as [|k IH]; [reflexivity|].
  simpl. exact IH.
Qed.

Lemma zero_pad_digits (base : Z) (width : nat) (digits : list ascii) :
  0 < base ->
  Forall (fun c => Spec.is_digit base c = true) digits ->
  Forall (fun c => Spec.is_digit base c = true) (zero_pad width digits).
Proof.
  intros Hb H. unfold zero_pad. apply Forall_app. split; [|assumption].
  apply Forall_replicate. unfold Spec.is_digit.
  change (Spec.digit_value "0") with (Some 0). apply Z.ltb_lt. lia.
Qed.

Lemma zero_pad_no_nul (width : nat) (digits : list ascii) :
  Forall (fun c => c <> NUL) digits ->
  Forall (fun c => c <> NUL) (zero_pad width digits).
Proof.
  intros H. unfold zero_pad. apply Forall_app. split; [|assumption].
  apply Forall_replicate. discriminate.
Qed.

Lemma length_zero_pad_le (width : nat) (digits : list ascii) :
  (length (zero_pad width digits) <= Nat.max width (length digits))%nat.
Proof. unfold zero_pad. rewrite length_app, length_replicate. lia. Qed.

End Conversions.

(** ** C strings *)

Section CStrings.

Implicit Types (l a : list ascii) (s : string).

Lemma c_str_no_nul l : Forall (fun c => c <> NUL) l -> c_str l = l.
Proof.
  induction 1 as [|c l Hc _ IH]; [reflexivity|]. simpl.
  unfold is_nul. apply Ascii.eqb_neq in Hc. rewrite Hc, IH. reflexivity.
Qed.

Lemma c_str_terminated l a :
  Forall (fun c => c <> NUL) l -> c_str (l ++ NUL :: a) = l.
Proof.
  induction 1 as [|c l Hc _ IH]; [reflexivity|]. simpl.
  unfold is_nul. apply Ascii.eqb_neq in Hc. rewrite Hc, IH. reflexivity.
Qed.

Lemma c_str_is_text a : Forall (fun c => c <> NUL) (c_str a).
Proof.
  induction a as [|c a IH]; simpl; [constructor|].
  unfold is_nul. destruct (Ascii.eqb_spec c NUL); constructor; assumption.
Qed.

Lemma c_chars_of_list l :
  Forall (fun c => c <> NUL) l -> c_chars (string_of_list_ascii l) = l.
Proof.
  intros H. unfold c_chars.
  rewrite list_ascii_of_string_of_list_ascii. apply c_str_no_nul, H.
Qed.

Lemma c_chars_snprintf l :
  (length l <= 31)%nat -> Forall (fun c => c <> NUL) l ->
  c_chars (snprintf 32 l) = l.
Proof.
  intros Hlen Hl. unfold snprintf.
  rewrite take_ge by (simpl; lia). apply c_chars_of_list, Hl.
Qed.

End CStrings.

(** ** output_buff: every append is checked *)

Section OutputBuff.

Implicit Types (o : output_buff) (l : list ascii) (c : ascii).

Lemma wf_new (mem : list ascii) :
  Z.of_nat (length mem) = max_size -> wf (output_buff_new mem).
Proof. intros H. unfold wf, max_size in *. simpl. lia. Qed.

Lemma written_new (mem : list ascii) : written (output_buff_new mem) = [].
Proof. reflexivity. Qed.

Lemma append_full c o : max_size <= size o -> append c o = AssertionFailed.
Proof.
  intros H. unfold append.
  destruct (Z.ltb_spec (size o) max_size); [lia|reflexivity].
Qed.

Lemma append_room c o :
  wf o -> size o < max_size ->
  exists o', append c o = Done o'
             /\ wf o'
             /\ size o' = size o + 1
             /\ written o' = written o ++ [c].
Proof.
  intros [Hs Hl] Hroom. unfold append.
  destruct (Z.ltb_spec (size o) max_size); [|lia].
  eexists. split; [reflexivity|].
  unfold wf, written, to_unsigned, max_size in *. simpl.
  rewrite Z.mod_small by lia. rewrite length_insert.
  repeat split; try lia.
  rewrite insert_take_drop by lia.
  replace (Z.to_nat (size o + 1)) with (S (Z.to_nat (size o))) by lia.
  rewrite cons_middle, app_assoc.
  apply take_app_length'. rewrite length_app, length_take. simpl. lia.
Qed.

(** A successful append wrote exactly one character, below the limit. *)
Lemma append_Done c o o' :
  wf o -> append c o = Done o' ->
  size o < max_size /\ wf o' /\ size o' = size o + 1
  /\ written o' = written o ++ [c]
  /\ buff o' !! Z.to_nat (size o) = Some c.
Proof.
  intros Hwf H.
  destruct (Z.ltb_spec (size o) max_size) as [Hlt|Hge].
  - destruct (append_room c o Hwf Hlt) as (o1 & H1 & Hwf1 & Hs1 & Hw1).
    assert (o1 = o') as -> by congruence.
    repeat split; try assumption; try apply Hwf1.
    unfold append in H1. destruct (size o <? max_size); [|discriminate].
    injection H1 as <-. simpl. apply list_lookup_insert_eq.
    destruct Hwf as [? ?]. unfold max_size in *. lia.
  - rewrite append_full in H by lia. discriminate.
Qed.

Lemma append_emit c o : append c o = emit [c] o.
Proof. simpl. destruct (append c o); reflexivity. Qed.

Lemma emit_app l1 l2 o : emit (l1 ++ l2) o = obind (emit l1 o) (emit l2).
Proof.
  revert o. induction l1 as [|c l1 IH]; intros o; simpl; [reflexivity|].
  destruct (append c o); simpl; auto.
Qed.

Lemma append_str_emit (str : string) o :
  append_str str o = emit (c_chars str) o.
Proof.
  revert o. induction str as [|c p IH]; intros o; [reflexivity|].
  unfold c_chars. simpl. destruct (is_nul c); [reflexivity|]. simpl.
  destruct (append c o); simpl; auto.
Qed.

(** Appending a list either fits, and then all of it is written after
    what was there, or fails the assertion. *)
Lemma emit_fits l : forall o,
  wf o -> size o + Z.of_nat (length l) <= max_size ->
  exists o', emit l o = Done o'
             /\ wf o'
             /\ size o' = size o + Z.of_nat (length l)
             /\ written o' = written o ++ l.
Proof.
  induction l as [|c l IH]; intros o Hwf Hfit; simpl in *.
  - exists o. rewrite app_nil_r. repeat split; try apply Hwf. lia.
  - destruct (append_room c o Hwf ltac:(lia)) as (o1 & -> & Hwf1 & Hs1 & Hw1).
    simpl. destruct (IH o1 Hwf1 ltac:(lia)) as (o' & -> & Hwf' & Hs' & Hw').
    exists o'. repeat split; try apply Hwf'; [lia|].
    rewrite Hw', Hw1, <- app_assoc. reflexivity.
Qed.

Lemma emit_overflow l : forall o,
  wf o -> max_size < size o + Z.of_nat (length l) ->
  emit l o = AssertionFailed.
Proof.
  induction l as [|c l IH]; intros o Hwf Hover; simpl in *.
  - destruct Hwf. lia.
  - destruct (Z.ltb_spec (size o) max_size) as [Hlt|Hge].
    + destruct (append_room c o Hwf Hlt) as (o1 & -> & Hwf1 & Hs1 & _).
      simpl. apply IH; [assumption|lia].
    + rewrite append_full by lia. reflexivity.
Qed.

(** The array is the written part followed by the part not yet reached. *)
Lemma buff_written o :
  buff o = written o ++ drop (Z.to_nat (size o)) (buff o).
Proof. unfold written. symmetry. apply take_drop. Qed.

End OutputBuff.

(** ** What each statement of [on_format_impl] appends *)

Create HintDb emits discriminated.

Section Emits.

Lemma to_int_small (d : Z) : - 2 ^ 31 <= d < 2 ^ 31 -> to_int d = d.
Proof. intros H. unfold to_int. rewrite Z.mod_small; lia. Qed.

Lemma sign_extend8_range (d : Z) : -128 <= sign_extend8 d < 128.
Proof.
  unfold sign_extend8.
  pose proof (Z.mod_pos_bound d 256 ltac:(lia)).
  destruct (Z.ltb_spec (d mod 256) 128); lia.
Qed.

Lemma to_int_sign_extend8 (d : Z) : to_int (sign_extend8 d) = sign_extend8 d.
Proof. apply to_int_small. pose proof (sign_extend8_range d). lia. Qed.

Lemma conv_0x_no_nul (width : nat) (n : Z) :
  Forall (fun c => c <> NUL) (conv_0x width n).
Proof. apply zero_pad_no_nul, utoa_no_nul. constructor. Qed.

Lemma conv_0x_length (width : nat) (n : Z) :
  (width <= 8)%nat -> (length (conv_0x width n) <= 8)%nat.
Proof.
  intros Hw. unfold conv_0x.
  pose proof (length_zero_pad_le width (utoa 16 8 n [])).
  pose proof (utoa_length 16 8 n []). simpl in *. lia.
Qed.

Lemma conv_plus_d_no_nul (d : Z) : Forall (fun c => c <> NUL) (conv_plus_d d).
Proof.
  unfold conv_plus_d. constructor.
  - destruct (d <? 0); discriminate.
  - apply utoa_no_nul. constructor.
Qed.

Lemma conv_plus_d_length (d : Z) : (length (conv_plus_d d) <= 11)%nat.
Proof.
  unfold conv_plus_d. pose proof (utoa_length 10 10 (Z.abs d) []).
  simpl in *. lia.
Qed.

Lemma hex_text_no_nul (width : nat) (n : Z) :
  Forall (fun c => c <> NUL) (Spec.hex_text width n).
Proof.
  unfold Spec.hex_text. apply Forall_app. split.
  - repeat constructor; discriminate.
  - apply conv_0x_no_nul.
Qed.

Lemma emits_ret : emits (ret tt) [].
Proof. intros [a o]. reflexivity. Qed.

Lemma emits_append (c : ascii) : emits (on_out (append c)) [c].
Proof. intros st. unfold on_out. rewrite append_emit. reflexivity. Qed.

Lemma emits_append_str (str : string) :
  emits (on_out (append_str str)) (c_chars str).
Proof. intros st. unfold on_out. rewrite append_str_emit. reflexivity. Qed.

(** [snprintf] never truncates here: the longest conversion has eleven
    characters and [pad] holds thirty-one. *)
Lemma append_u8_emit (n : Z) (o : output_buff) :
  append_u8 n o = emit (Spec.hex_text 2 n) o.
Proof.
  unfold append_u8.
  rewrite append_str_emit, c_chars_snprintf; [reflexivity| |].
  - rewrite length_app. pose proof (conv_0x_length 2 (to_unsigned n)).
    simpl. lia.
  - apply hex_text_no_nul.
Qed.

Lemma append_u16_emit (nn : Z) (o : output_buff) :
  append_u16 nn o = emit (Spec.hex_text 4 nn) o.
Proof.
  unfold append_u16.
  rewrite append_str_emit, c_chars_snprintf; [reflexivity| |].
  - rewrite length_app. pose proof (conv_0x_length 4 (to_unsigned nn)).
    simpl. lia.
  - apply hex_text_no_nul.
Qed.

Lemma append_disp_emit (d : Z) (o : output_buff) :
  append_disp d o = emit (conv_plus_d (to_int d)) o.
Proof.
  unfold append_disp.
  rewrite append_str_emit, c_chars_snprintf; [reflexivity| |].
  - pose proof (conv_plus_d_length (to_int d)). lia.
  - apply conv_plus_d_no_nul.
Qed.

Lemma append_op_emit (f : output_buff -> outcome output_buff)
      (text : list ascii) :
  append_op f text -> forall o, f o = emit text o.
Proof.
  destruct 1; intros o.
  - apply append_emit.
  - apply append_str_emit.
  - apply append_u8_emit.
  - apply append_u16_emit.
  - apply append_disp_emit.
Qed.

Lemma emits_append_u8 (n : Z) :
  emits (on_out (append_u8 n)) (Spec.hex_text 2 n).
Proof. intros st. unfold on_out. rewrite append_u8_emit. reflexivity. Qed.

Lemma emits_append_u16 (nn : Z) :
  emits (on_out (append_u16 nn)) (Spec.hex_text 4 nn).
Proof. intros st. unfold on_out. rewrite append_u16_emit. reflexivity. Qed.

Lemma emits_append_disp (d : Z) :
  emits (on_out (append_disp d)) (conv_plus_d (to_int d)).
Proof. intros st. unfold on_out. rewrite append_disp_emit. reflexivity. Qed.

Lemma emits_seq (m1 m2 : M unit) (l1 l2 : list ascii) :
  emits m1 l1 -> emits m2 l2 -> emits (m1;;; m2) (l1 ++ l2).
Proof.
  intros H1 H2 st. unfold bind. rewrite H1.
  unfold on_out. rewrite emit_app.
  destruct (emit l1 (out st)) as [o1| |]; simpl; try reflexivity.
  rewrite H2. reflexivity.
Qed.

End Emits.

#[global] Hint Resolve emits_ret emits_append emits_append_str emits_append_u8
  emits_append_u16 emits_append_disp emits_seq : emits.

(** ** The interpreter follows the rendering rules *)

Section Refinement.

Lemma bind_get_arg {T B} (as_T : arg -> option T) (k : T -> M B)
      (v : arg) (x : T) (rest : list arg) (o : output_buff) :
  as_T v = Some x ->
  bind (get_arg as_T) k {| args := v :: rest; out := o |}
  = k x {| args := rest; out := o |}.
Proof. intros H. unfold bind, get_arg. simpl. rewrite H. reflexivity. Qed.

Lemma emits_if (b : bool) (m1 m2 : M unit) (l1 l2 : list ascii) :
  emits m1 l1 -> emits m2 l2 ->
  emits (if b then m1 else m2) (if b then l1 else l2).
Proof. destruct b; auto. Qed.

Lemma emits_eq (m : M unit) (l t : list ascii) (st : fmt_state) :
  emits m l -> l = t -> m st = on_out (emit t) st.
Proof. intros H <-. apply H. Qed.

Lemma two_operand_agrees (k : alu.t) :
  is_two_operand_alu_instr k = Spec.two_operand k.
Proof. destruct k; reflexivity. Qed.

Local Hint Resolve emits_if : emits.

Local Ltac next_arg :=
  erewrite bind_get_arg by reflexivity.

Local Ltac by_emits :=
  eapply emits_eq; [eauto 12 with emits|].

(** One character of the format string: when the arguments are the ones
    its directive consumes, the statement of the [switch] appends the
    text of the rendering rule and leaves the other arguments. *)
Lemma on_format_char_text (c : ascii) (a rest : list arg) (t : list ascii)
      (o : output_buff) :
  Spec.directive_text c a = Some (t, rest) ->
  on_format_char c {| args := a; out := o |}
  = on_out (emit t) {| args := rest; out := o |}.
Proof.
  unfold Spec.directive_text, on_format_char.
  destruct (Ascii.eqb c "A").
  { destruct a as [|[] a']; try discriminate. intros [= <- <-].
    next_arg. by_emits. destruct k; reflexivity. }
  destruct (Ascii.eqb c "R").
  { destruct a as [|[] [|[] [|[] a']]]; try discriminate. intros [= <- <-].
    do 3 next_arg. by_emits. rewrite to_int_sign_extend8.
    destruct r, irp; reflexivity. }
  destruct (Ascii.eqb c "P").
  { destruct a as [|[] [|[] a']]; try discriminate. intros [= <- <-].
    do 2 next_arg. by_emits. destruct rp, irp; reflexivity. }
  destruct (Ascii.eqb c "N").
  { destruct a as [|[] a']; try discriminate. intros [= <- <-].
    next_arg. by_emits. reflexivity. }
  destruct (Ascii.eqb c "W").
  { destruct a as [|[] a']; try discriminate. intros [= <- <-].
    next_arg. by_emits. reflexivity. }
  destruct (Ascii.eqb c "C").
  { destruct a as [|[] a']; try discriminate. intros [= <- <-].
    next_arg. by_emits. destruct cc; reflexivity. }
  destruct (Ascii.eqb c "D").
  { destruct a as [|[] a']; try discriminate. intros [= <- <-].
    next_arg. by_emits. reflexivity. }
  destruct (Ascii.eqb c "L").
  { destruct a as [|[] a']; try discriminate. intros [= <- <-].
    next_arg. by_emits. destruct k; reflexivity. }
  intros [= <- <-]. by_emits. reflexivity.
Qed.

Lemma c_chars_String (c : ascii) (p : string) :
  c_chars (String c p) = if is_nul c then [] else c :: c_chars p.
Proof. reflexivity. Qed.

(** The scan of a format string appends the rendered line. *)
Lemma scan_render (fmt : string) :
  forall (a rest : list arg) (line : list ascii) (o : output_buff),
    Spec.render (c_chars fmt) a = Some (line, rest) ->
    scan fmt {| args := a; out := o |}
    = on_out (emit line) {| args := rest; out := o |}.
Proof.
  induction fmt as [|c p IH]; intros a rest line o.
  { intros [= <- <-]. reflexivity. }
  rewrite c_chars_String. simpl scan. destruct (is_nul c).
  { intros [= <- <-]. reflexivity. }
  simpl. destruct (Spec.directive_text c a) as [[t a']|] eqn:Ht; [|discriminate].
  destruct (Spec.render (c_chars p) a') as [[line' rest']|] eqn:Hr; [|discriminate].
  intros [= <- <-]. unfold bind.
  rewrite (on_format_char_text _ _ _ _ _ Ht). unfold on_out. simpl.
  rewrite emit_app. destruct (emit t o) as [o1| |]; simpl; try reflexivity.
  rewrite (IH _ _ _ _ Hr). reflexivity.
Qed.

Lemma lit_no_nul_names :
  (forall r, Forall (fun c => c <> NUL) (lit (get_reg_name r)))
  /\ (forall irp, Forall (fun c => c <> NUL) (lit (get_index_reg_name irp)))
  /\ (forall k, Forall (fun c => c <> NUL) (lit (get_mnemonic k)))
  /\ (forall k, Forall (fun c => c <> NUL) (lit (get_mnemonic_block_ld k)))
  /\ (forall cc, Forall (fun c => c <> NUL) (lit (get_condition_name cc))).
Proof.
  repeat split; intros []; repeat constructor; discriminate.
Qed.

Lemma directive_text_no_nul (c : ascii) (a rest : list arg) (t : list ascii) :
  c <> NUL -> Spec.directive_text c a = Some (t, rest) ->
  Forall (fun c => c <> NUL) t.
Proof.
  intros Hc. destruct lit_no_nul_names as (Hreg & Hirp & Halu & Hblk & Hcc).
  unfold Spec.directive_text.
  destruct (Ascii.eqb c "A").
  { destruct a as [|[] a']; try discriminate. intros [= <- <-].
    apply Forall_app. split; [apply Halu|].
    destruct (Spec.two_operand k); repeat constructor; discriminate. }
  destruct (Ascii.eqb c "R").
  { destruct a as [|[] [|[] [|[] a']]]; try discriminate. intros [= <- <-].
    unfold Spec.register_text.
    assert (Forall (fun c => c <> NUL)
              (lit "(" ++ lit (get_index_reg_name irp)
                ++ conv_plus_d (sign_extend8 n) ++ lit ")")).
    { repeat (apply Forall_app; split); auto using conv_plus_d_no_nul;
        repeat constructor; discriminate. }
    destruct r; try apply Hreg. destruct irp; try assumption. apply (Hreg reg.at_hl). }
  destruct (Ascii.eqb c "P").
  { destruct a as [|[] [|[] a']]; try discriminate. intros [= <- <-].
    destruct rp; try apply Hirp; repeat constructor; discriminate. }
  destruct (Ascii.eqb c "N").
  { destruct a as [|[] a']; try discriminate. intros [= <- <-].
    apply hex_text_no_nul. }
  destruct (Ascii.eqb c "W").
  { destruct a as [|[] a']; try discriminate. intros [= <- <-].
    apply hex_text_no_nul. }
  destruct (Ascii.eqb c "C").
  { destruct a as [|[] a']; try discriminate. intros [= <- <-]. apply Hcc. }
  destruct (Ascii.eqb c "D").
  { destruct a as [|[] a']; try discriminate. intros [= <- <-].
    constructor; [discriminate|]. apply conv_plus_d_no_nul. }
  destruct (Ascii.eqb c "L").
  { destruct a as [|[] a']; try discriminate. intros [= <- <-]. apply Hblk. }
  intros [= <- <-]. repeat constructor. assumption.
Qed.

Lemma render_no_nul (fmt : list ascii) :
  Forall (fun c => c <> NUL) fmt ->
  forall a line rest, Spec.render fmt a = Some (line, rest) ->
                      Forall (fun c => c <> NUL) line.
Proof.
  induction 1 as [|c fmt Hc _ IH]; intros a line rest; simpl.
  { intros [= <- <-]. constructor. }
  destruct (Spec.directive_text c a) as [[t a']|] eqn:Ht; [|discriminate].
  destruct (Spec.render fmt a') as [[line' rest']|] eqn:Hr; [|discriminate].
  intros [= <- <-]. apply Forall_app. split.
  - eapply directive_text_no_nul; eassumption.
  - eapply IH; eassumption.
Qed.

End Refinement.

(** ** One formatting call *)

Section FormattingCall.

Context {D : Type} `{!disassembler D}.

Lemma on_format_char_mismatch (c : ascii) (a : list arg) (o : output_buff) :
  Spec.directive_text c a = None ->
  on_format_char c {| args := a; out := o |} = Undefined.
Proof.
  unfold Spec.directive_text, on_format_char.
  destruct (Ascii.eqb c "A").
  { destruct a as [|[] a']; try discriminate; reflexivity. }
  destruct (Ascii.eqb c "R").
  { destruct a as [|[] [|[] [|[] a']]]; try discriminate; reflexivity. }
  destruct (Ascii.eqb c "P").
  { destruct a as [|[] [|[] a']]; try discriminate; reflexivity. }
  destruct (Ascii.eqb c "N").
  { destruct a as [|[] a']; try discriminate; reflexivity. }
  destruct (Ascii.eqb c "W").
  { destruct a as [|[] a']; try discriminate; reflexivity. }
  destruct (Ascii.eqb c "C").
  { destruct a as [|[] a']; try discriminate; reflexivity. }
  destruct (Ascii.eqb c "D").
  { destruct a as [|[] a']; try discriminate; reflexivity. }
  destruct (Ascii.eqb c "L").
  { destruct a as [|[] a']; try discriminate; reflexivity. }
  discriminate.
Qed.

(** A scan that comes to its end had the arguments its directives
    consume. *)
Lemma scan_Done_render (fmt : string) :
  forall (a : list arg) (o : output_buff) (st : fmt_state),
    scan fmt {| args := a; out := o |} = Done (tt, st) ->
    exists line, Spec.render (c_chars fmt) a = Some (line, args st).
Proof.
  induction fmt as [|c p IH]; intros a o st.
  { intros [= <-]. exists []. reflexivity. }
  rewrite c_chars_String. simpl scan. destruct (is_nul c).
  { intros [= <-]. exists []. reflexivity. }
  unfold bind. simpl.
  destruct (Spec.directive_text c a) as [[t a']|] eqn:Ht.
  - rewrite (on_format_char_text _ _ _ _ _ Ht). unfold on_out. simpl.
    destruct (emit t o) as [o1| |]; try discriminate.
    intros Hscan. destruct (IH _ _ _ Hscan) as (line & ->).
    eexists. reflexivity.
  - rewrite (on_format_char_mismatch _ _ _ Ht). discriminate.
Qed.

Lemma c_chars_no_nul (fmt : string) : Forall (fun c => c <> NUL) (c_chars fmt).
Proof. apply c_str_is_text. Qed.

(** A line that fits with its terminator is handed to [on_output], in a
    buffer that holds the line, then the terminator. *)
Lemma on_format_impl_fits (fmt : string) (a rest : list arg)
      (line mem : list ascii) (self : D) :
  Spec.render (c_chars fmt) a = Some (line, rest) ->
  Z.of_nat (length mem) = max_size ->
  Z.of_nat (length line) < max_size ->
  exists buf,
    on_format_impl fmt a mem self = Done (on_output buf self)
    /\ Z.of_nat (length buf) = max_size
    /\ take (length line) buf = line
    /\ buf !! length line = Some NUL
    /\ c_str buf = line.
Proof.
  intros Hr Hmem Hlen. unfold on_format_impl.
  rewrite (scan_render _ _ _ _ _ Hr). unfold on_out. cbn [args out].
  pose proof (wf_new mem Hmem) as Hwf0.
  destruct (emit_fits line (output_buff_new mem) Hwf0)
    as (o1 & -> & Hwf1 & Hs1 & Hw1); [simpl; lia|].
  simpl in Hs1. rewrite written_new in Hw1. simpl in Hw1. cbn [args out].
  destruct (append_room NUL o1 Hwf1 ltac:(lia)) as (o2 & Happ & _).
  destruct (append_Done NUL o1 o2 Hwf1 Happ) as (_ & Hwf2 & Hs2 & Hw2 & Hnul).
  rewrite Happ. exists (get_buff o2). split; [reflexivity|]. unfold get_buff.
  assert (Hbuf : buff o2 = line ++ NUL :: drop (Z.to_nat (size o2)) (buff o2)).
  { rewrite (buff_written o2) at 1. rewrite Hw2, Hw1, <- app_assoc. reflexivity. }
  replace (Z.to_nat (size o1)) with (length line) in Hnul by lia.
  repeat split.
  - apply Hwf2.
  - rewrite Hbuf. apply take_app_length.
  - exact Hnul.
  - rewrite Hbuf. apply c_str_terminated.
    eapply render_no_nul; [apply c_chars_no_nul|exact Hr].
Qed.

(** A line that does not fit with its terminator fails an assertion. *)
Lemma on_format_impl_overflow (fmt : string) (a rest : list arg)
      (line mem : list ascii) (self : D) :
  Spec.render (c_chars fmt) a = Some (line, rest) ->
  Z.of_nat (length mem) = max_size ->
  max_size <= Z.of_nat (length line) ->
  on_format_impl fmt a mem self = AssertionFailed.
Proof.
  intros Hr Hmem Hlen. unfold on_format_impl.
  rewrite (scan_render _ _ _ _ _ Hr). unfold on_out. cbn [args out].
  pose proof (wf_new mem Hmem) as Hwf0.
  destruct (Z.eq_dec (Z.of_nat (length line)) max_size) as [Heq|Hne].
  - destruct (emit_fits line (output_buff_new mem) Hwf0)
      as (o1 & -> & Hwf1 & Hs1 & Hw1); [simpl; lia|].
    simpl in Hs1. cbn [args out]. rewrite append_full by lia. reflexivity.
  - rewrite emit_overflow; [reflexivity|assumption|simpl; lia].
Qed.

(** A call that returns rendered its line by the rules. *)
Lemma on_format_impl_Done (fmt : string) (a : list arg)
      (mem : list ascii) (self d' : D) :
  Z.of_nat (length mem) = max_size ->
  on_format_impl fmt a mem self = Done d' ->
  exists line rest buf,
    Spec.render (c_chars fmt) a = Some (line, rest)
    /\ Z.of_nat (length line) < max_size
    /\ d' = on_output buf self
    /\ Z.of_nat (length buf) = max_size
    /\ take (length line) buf = line
    /\ buf !! length line = Some NUL
    /\ c_str buf = line.
Proof.
  intros Hmem Hdone.
  assert (Hr : exists line rest, Spec.render (c_chars fmt) a = Some (line, rest)).
  { unfold on_format_impl in Hdone.
    destruct (scan fmt _) as [[[] st]| |] eqn:Hscan; try discriminate.
    destruct (scan_Done_render _ _ _ _ Hscan) as (line & Hline). eauto. }
  destruct Hr as (line & rest & Hr).
  destruct (Z.lt_ge_cases (Z.of_nat (length line)) max_size) as [Hlt|Hge].
  - destruct (on_format_impl_fits _ _ _ _ _ self Hr Hmem Hlt)
      as (buf & Hrun & Hbuf).
    rewrite Hrun in Hdone. injection Hdone as <-.
    exists line, rest, buf. auto.
  - rewrite (on_format_impl_overflow _ _ _ _ _ self Hr Hmem Hge) in Hdone.
    discriminate.
Qed.

End FormattingCall.

(** ** The conversions print what the rules say *)

Section ConversionsSpec.

Lemma conv_0x_hex_of (width : nat) (n : Z) :
  (0 < width <= 8)%nat -> 0 <= n < 16 ^ Z.of_nat width ->
  Spec.hex_of width n (conv_0x width n).
Proof.
  intros Hw Hn. unfold Spec.hex_of, conv_0x. repeat split.
  - apply length_zero_pad. apply utoa_short; [lia|assumption|lia].
  - apply zero_pad_digits; [lia|]. apply utoa_digits; [lia|constructor].
  - rewrite number_value_zero_pad. apply utoa_value; [lia|].
    split; [lia|]. eapply Z.lt_le_trans; [apply Hn|].
    apply Z.pow_le_mono_r; lia.
Qed.

Lemma utoa_decimal_of (n : Z) :
  0 <= n <= 2 ^ 31 -> Spec.decimal_of n (utoa 10 10 n []).
Proof.
  intros Hn. unfold Spec.decimal_of. repeat split.
  - apply utoa_digits; [lia|constructor].
  - apply utoa_value; simpl; lia.
  - destruct (Z.eqb_spec n 0) as [->|Hnz]; [reflexivity|].
    destruct (utoa_head 10 ltac:(lia) 10 n) as (c & rest & -> & Hc);
      [simpl; lia|].
    simpl. intros [= ->]. apply Hc. reflexivity.
Qed.

Lemma conv_plus_d_signed_decimal (v : Z) :
  - 2 ^ 31 <= v < 2 ^ 31 -> Spec.signed_decimal v (conv_plus_d v).
Proof.
  intros Hv. exists (utoa 10 10 (Z.abs v) []). split; [reflexivity|].
  apply utoa_decimal_of. lia.
Qed.

End ConversionsSpec.

(** ** The directives *)

Section Directives.

Implicit Types (o : output_buff) (rest : list arg).

(** A directive whose arguments are there appends its text when it fits
    and fails the assertion of [append] when it does not. *)
Lemma on_format_char_appends (c : ascii) (a rest : list arg)
      (t : list ascii) o :
  Spec.directive_text c a = Some (t, rest) -> wf o ->
  (size o + Z.of_nat (length t) <= max_size ->
   exists o', on_format_char c {| args := a; out := o |}
              = Done (tt, {| args := rest; out := o' |})
              /\ wf o'
              /\ size o' = size o + Z.of_nat (length t)
              /\ written o' = written o ++ t)
  /\ (max_size < size o + Z.of_nat (length t) ->
      on_format_char c {| args := a; out := o |} = AssertionFailed).
Proof.
  intros Ht Hwf. rewrite (on_format_char_text _ _ _ _ _ Ht).
  unfold on_out. cbn [args out]. split; intros Hsz.
  - destruct (emit_fits t o Hwf Hsz) as (o' & -> & Hwf' & Hs' & Hw').
    exists o'. auto.
  - rewrite emit_overflow by assumption. reflexivity.
Qed.

(** C1: the register-operand directive 'R' applied to the memory-indirect
    placeholder appends exactly "(hl)" when the context is unindexed,
    whatever the displacement; under ix or iy it appends "(", the name of
    the index register, the displacement byte sign-extended and printed in
    decimal with an explicit sign, and ")".  The three arguments are
    consumed. *)
Theorem register_operand_memory_indirect
    (irp : index_regp.t) (d : Z) rest o :
  wf o ->
  let v := sign_extend8 d in
  let text :=
    match irp with
    | index_regp.hl => lit "(hl)"
    | index_regp.ix => lit "(ix" ++ conv_plus_d v ++ lit ")"
    | index_regp.iy => lit "(iy" ++ conv_plus_d v ++ lit ")"
    end in
  size o + Z.of_nat (length text) <= max_size ->
  (-128 <= v < 128 /\ (v - d) mod 256 = 0)
  /\ Spec.signed_decimal v (conv_plus_d v)
  /\ exists o',
      on_format_char "R"
        {| args := arg_reg reg.at_hl :: arg_index_regp irp
                     :: arg_fast_u8 d :: rest;
           out := o |}
      = Done (tt, {| args := rest; out := o' |})
      /\ written o' = written o ++ text.
Proof.
  intros Hwf v text Hfit. split; [|split].
  - split; [apply sign_extend8_range|]. unfold v, sign_extend8.
    pose proof (Z.div_mod d 256 ltac:(lia)) as Hd.
    destruct (d mod 256 <? 128).
    + replace (d mod 256 - d) with (0 + - (d / 256) * 256) by lia.
      apply Z.mod_add. lia.
    + replace (d mod 256 - 256 - d) with (0 + (- (d / 256) - 1) * 256) by lia.
      apply Z.mod_add. lia.
  - apply conv_plus_d_signed_decimal. pose proof (sign_extend8_range d). lia.
  - assert (Ht : Spec.directive_text "R"
              (arg_reg reg.at_hl :: arg_index_regp irp :: arg_fast_u8 d :: rest)
            = Some (text, rest)).
    { unfold text. destruct irp; reflexivity. }
    destruct (on_format_char_appends _ _ _ _ o Ht Hwf) as [Hok _].
    destruct (Hok Hfit) as (o' & Hrun & _ & _ & Hw). eauto.
Qed.

(** C2: for every register other than the memory-indirect placeholder,
    under every context and displacement, the directive 'R' appends
    exactly the fixed name of the register: "b" for b, "c" for c, "d" for
    d, "e" for e, "h" for h, "l" for l and "a" for a; the context and the
    displacement are consumed and have no effect on the result.  (The
    placeholder is excluded by the hypothesis; its entry in the table is
    "(hl)".) *)
Theorem register_operand_plain
    (r : reg.t) (irp : index_regp.t) (d : Z) rest o :
  r <> reg.at_hl -> wf o ->
  let name :=
    match r with
    | reg.b => lit "b"
    | reg.c => lit "c"
    | reg.d => lit "d"
    | reg.e => lit "e"
    | reg.h => lit "h"
    | reg.l => lit "l"
    | reg.at_hl => lit "(hl)"
    | reg.a => lit "a"
    end in
  size o + Z.of_nat (length name) <= max_size ->
  In (get_reg_name r) ["b"; "c"; "d"; "e"; "h"; "l"; "a"]%string
  /\ (exists o',
        on_format_char "R"
          {| args := arg_reg r :: arg_index_regp irp :: arg_fast_u8 d :: rest;
             out := o |}
        = Done (tt, {| args := rest; out := o' |})
        /\ written o' = written o ++ name)
  /\ (forall irp' d',
        on_format_char "R"
          {| args := arg_reg r :: arg_index_regp irp' :: arg_fast_u8 d' :: rest;
             out := o |}
        = on_format_char "R"
            {| args := arg_reg r :: arg_index_regp irp :: arg_fast_u8 d :: rest;
               out := o |}).
Proof.
  intros Hr Hwf name Hfit.
  assert (Ht : forall irp' d',
             Spec.directive_text "R"
               (arg_reg r :: arg_index_regp irp' :: arg_fast_u8 d' :: rest)
             = Some (name, rest)).
  { intros irp' d'. unfold name. destruct r; try reflexivity. congruence. }
  split; [|split].
  - destruct r; simpl; tauto.
  - destruct (on_format_char_appends _ _ _ _ o (Ht irp d) Hwf) as [Hok _].
    destruct (Hok Hfit) as (o' & Hrun & _ & _ & Hw). eauto.
  - intros irp' d'.
    rewrite (on_format_char_text _ _ _ _ _ (Ht irp' d')).
    rewrite (on_format_char_text _ _ _ _ _ (Ht irp d)). reflexivity.
Qed.

(** C3: the register-pair directive 'P' appends, for the pair hl, the
    name given by the context, "hl" when unindexed, "ix" under ix and
    "iy" under iy; for bc, de and sp it appends the fixed name of the
    pair under every context. *)
Theorem register_pair_operand (rp : regp.t) (irp : index_regp.t) rest o :
  wf o ->
  let name :=
    match rp, irp with
    | regp.hl, index_regp.hl => lit "hl"
    | regp.hl, index_regp.ix => lit "ix"
    | regp.hl, index_regp.iy => lit "iy"
    | regp.bc, _ => lit "bc"
    | regp.de, _ => lit "de"
    | regp.sp, _ => lit "sp"
    end in
  size o + Z.of_nat (length name) <= max_size ->
  exists o',
    on_format_char "P"
      {| args := arg_regp rp :: arg_index_regp irp :: rest; out := o |}
    = Done (tt, {| args := rest; out := o' |})
    /\ written o' = written o ++ name.
Proof.
  intros Hwf name Hfit.
  assert (Ht : Spec.directive_text "P"
                 (arg_regp rp :: arg_index_regp irp :: rest)
               = Some (name, rest)).
  { unfold name. destruct rp, irp; reflexivity. }
  destruct (on_format_char_appends _ _ _ _ o Ht Hwf) as [Hok _].
  destruct (Hok Hfit) as (o' & Hrun & _ & _ & Hw). eauto.
Qed.

(** C4: the ALU directive 'A' appends the mnemonic of the operation,
    "add", "adc", "sub", "sbc", "and", "xor", "or" or "cp", and after it
    the suffix " a," exactly when the operation is add, adc or sbc. *)
Theorem alu_directive (k : alu.t) rest o :
  wf o ->
  let mnemonic :=
    match k with
    | alu.add => lit "add"
    | alu.adc => lit "adc"
    | alu.sub => lit "sub"
    | alu.sbc => lit "sbc"
    | alu.and_a => lit "and"
    | alu.xor_a => lit "xor"
    | alu.or_a => lit "or"
    | alu.cp => lit "cp"
    end in
  let suffix :=
    match k with
    | alu.add | alu.adc | alu.sbc => lit " a,"
    | alu.sub | alu.and_a | alu.xor_a | alu.or_a | alu.cp => []
    end in
  let text := mnemonic ++ suffix in
  size o + Z.of_nat (length text) <= max_size ->
  exists o',
    on_format_char "A" {| args := arg_alu k :: rest; out := o |}
    = Done (tt, {| args := rest; out := o' |})
    /\ written o' = written o ++ text.
Proof.
  intros Hwf mnemonic suffix text Hfit.
  assert (Ht : Spec.directive_text "A" (arg_alu k :: rest) = Some (text, rest)).
  { unfold text, mnemonic, suffix. destruct k; reflexivity. }
  destruct (on_format_char_appends _ _ _ _ o Ht Hwf) as [Hok _].
  destruct (Hok Hfit) as (o' & Hrun & _ & _ & Hw). eauto.
Qed.

(** C7: for a value that fits in 8 bits the directive 'N' appends "0x"
    and exactly two lower-case hexadecimal digits, zero-padded, whose
    value is the argument; for a value that fits in 16 bits the directive
    'W' appends "0x" and exactly four such digits. *)
Theorem immediate_directives :
  (forall n rest o,
      0 <= n < 256 -> wf o -> size o + 4 <= max_size ->
      Spec.hex_of 2 n (conv_0x 2 n)
      /\ exists o',
          on_format_char "N" {| args := arg_fast_u8 n :: rest; out := o |}
          = Done (tt, {| args := rest; out := o' |})
          /\ written o' = written o ++ lit "0x" ++ conv_0x 2 n)
  /\ (forall nn rest o,
        0 <= nn < 65536 -> wf o -> size o + 6 <= max_size ->
        Spec.hex_of 4 nn (conv_0x 4 nn)
        /\ exists o',
            on_format_char "W" {| args := arg_fast_u16 nn :: rest; out := o |}
            = Done (tt, {| args := rest; out := o' |})
            /\ written o' = written o ++ lit "0x" ++ conv_0x 4 nn).
Proof.
  split.
  - intros n rest o Hn Hwf Hfit.
    assert (Hhex : Spec.hex_of 2 n (conv_0x 2 n))
      by (apply conv_0x_hex_of; simpl; lia).
    split; [exact Hhex|].
    assert (Ht : Spec.directive_text "N" (arg_fast_u8 n :: rest)
                 = Some (lit "0x" ++ conv_0x 2 n, rest)).
    { unfold Spec.directive_text, Spec.hex_text, to_unsigned. simpl.
      rewrite Z.mod_small by lia. reflexivity. }
    destruct (on_format_char_appends _ _ _ _ o Ht Hwf) as [Hok _].
    destruct Hok as (o' & Hrun & _ & _ & Hw); [|eauto].
    destruct Hhex as (Hlen & _). rewrite length_app, Hlen. simpl. lia.
  - intros nn rest o Hn Hwf Hfit.
    assert (Hhex : Spec.hex_of 4 nn (conv_0x 4 nn))
      by (apply conv_0x_hex_of; simpl; lia).
    split; [exact Hhex|].
    assert (Ht : Spec.directive_text "W" (arg_fast_u16 nn :: rest)
                 = Some (lit "0x" ++ conv_0x 4 nn, rest)).
    { unfold Spec.directive_text, Spec.hex_text, to_unsigned. simpl.
      rewrite Z.mod_small by lia. reflexivity. }
    destruct (on_format_char_appends _ _ _ _ o Ht Hwf) as [Hok _].
    destruct Hok as (o' & Hrun & _ & _ & Hw); [|eauto].
    destruct Hhex as (Hlen & _). rewrite length_app, Hlen. simpl. lia.
Qed.

End Directives.

(** ** The contents of the array before the call do not matter *)

Section Determinism.

Lemma c_str_app_nul (l r : list ascii) : c_str (l ++ NUL :: r) = c_str l.
Proof.
  induction l as [|c l IH]; simpl; [reflexivity|].
  destruct (is_nul c); [reflexivity|]. rewrite IH. reflexivity.
Qed.

Lemma emit_same_text (t : list ascii) (o1 o2 : output_buff) :
  wf o1 -> wf o2 -> same_text o1 o2 ->
  match emit t o1, emit t o2 with
  | Done o1', Done o2' => same_text o1' o2' /\ wf o1' /\ wf o2'
  | AssertionFailed, AssertionFailed => True
  | _, _ => False
  end.
Proof.
  intros Hwf1 Hwf2 [Hs Hw].
  destruct (Z.le_gt_cases (size o1 + Z.of_nat (length t)) max_size) as [Hle|Hgt].
  - destruct (emit_fits t o1 Hwf1 Hle) as (o1' & -> & Hwf1' & Hs1 & Hw1).
    destruct (emit_fits t o2 Hwf2 ltac:(lia)) as (o2' & -> & Hwf2' & Hs2 & Hw2).
    split; [split|split; assumption]; [lia|].
    rewrite Hw1, Hw2, Hw. reflexivity.
  - rewrite !emit_overflow by (assumption || lia). exact I.
Qed.

Lemma on_format_char_same_text (c : ascii) (a : list arg) (o1 o2 : output_buff) :
  wf o1 -> wf o2 -> same_text o1 o2 ->
  same_outcome (on_format_char c {| args := a; out := o1 |})
               (on_format_char c {| args := a; out := o2 |}).
Proof.
  intros Hwf1 Hwf2 Hsame.
  destruct (Spec.directive_text c a) as [[t rest]|] eqn:Ht.
  - rewrite !(on_format_char_text _ _ _ _ _ Ht). unfold on_out. cbn [args out].
    pose proof (emit_same_text t o1 o2 Hwf1 Hwf2 Hsame) as H.
    destruct (emit t o1), (emit t o2); simpl; try contradiction; try exact I.
    tauto.
  - rewrite !on_format_char_mismatch by assumption. exact I.
Qed.

Lemma scan_same_text (fmt : string) :
  forall (a : list arg) (o1 o2 : output_buff),
    wf o1 -> wf o2 -> same_text o1 o2 ->
    same_outcome (scan fmt {| args := a; out := o1 |})
                 (scan fmt {| args := a; out := o2 |}).
Proof.
  induction fmt as [|c p IH]; intros a o1 o2 Hwf1 Hwf2 Hsame.
  { simpl. auto. }
  simpl scan. destruct (is_nul c); [simpl; auto|].
  unfold bind.
  pose proof (on_format_char_same_text c a o1 o2 Hwf1 Hwf2 Hsame) as H.
  destruct (on_format_char c {| args := a; out := o1 |}) as [[[] [a1 o1']]| |],
           (on_format_char c {| args := a; out := o2 |}) as [[[] [a2 o2']]| |];
    simpl in H; try contradiction; try exact I.
  destruct H as (<- & Hsame' & Hwf1' & Hwf2'). apply IH; assumption.
Qed.

(** The scan keeps the write position within the array. *)
Lemma scan_wf (fmt : string) (a : list arg) (o : output_buff) (st : fmt_state) :
  wf o -> scan fmt {| args := a; out := o |} = Done (tt, st) -> wf (out st).
Proof.
  intros Hwf Hscan.
  pose proof (scan_same_text fmt a o o Hwf Hwf (conj eq_refl eq_refl)) as H.
  rewrite Hscan in H. simpl in H. tauto.
Qed.

End Determinism.

(** ** Formatting calls *)

Section Calls.

Lemma directive_text_literal (c : ascii) (a : list arg) :
  Spec.is_directive c = false -> Spec.directive_text c a = Some ([c], a).
Proof.
  unfold Spec.is_directive, Spec.directives, Spec.directive_text. simpl.
  destruct (Ascii.eqb c "A"); [discriminate|].
  destruct (Ascii.eqb c "R"); [discriminate|].
  destruct (Ascii.eqb c "P"); [discriminate|].
  destruct (Ascii.eqb c "N"); [discriminate|].
  destruct (Ascii.eqb c "W"); [discriminate|].
  destruct (Ascii.eqb c "C"); [discriminate|].
  destruct (Ascii.eqb c "D"); [discriminate|].
  destruct (Ascii.eqb c "L"); [discriminate|].
  reflexivity.
Qed.

Lemma render_literals (fmt : list ascii) :
  forall a line rest,
    Spec.render fmt a = Some (line, rest) ->
    Spec.literals fmt `sublist_of` line.
Proof.
  induction fmt as [|c fmt IH]; intros a line rest; simpl.
  { intros [= <- <-]. constructor. }
  destruct (Spec.directive_text c a) as [[t a']|] eqn:Ht; [|discriminate].
  destruct (Spec.render fmt a') as [[line' rest']|] eqn:Hr; [|discriminate].
  intros [= <- <-]. specialize (IH _ _ _ Hr).
  destruct (Spec.is_directive c) eqn:Hc; simpl.
  - apply sublist_inserts_l, IH.
  - rewrite (directive_text_literal c a Hc) in Ht. injection Ht as <- <-.
    simpl. apply sublist_skip, IH.
Qed.

Lemma render_only_literals (fmt : list ascii) (a : list arg) :
  Forall (fun c => Spec.is_directive c = false) fmt ->
  Spec.render fmt a = Some (fmt, a).
Proof.
  induction 1 as [|c fmt Hc _ IH]; simpl; [reflexivity|].
  rewrite (directive_text_literal c a Hc), IH. reflexivity.
Qed.

(** C5: [append] writes only when the write position is strictly below
    [max_size] and fails the assertion otherwise; every appending
    operation of the buffer either writes the whole of its text and
    leaves the write position within the array, or fails the assertion,
    and never writes a part of it; the scan keeps the write position
    within the array; and a call whose line and terminator fit in
    [max_size] characters does not fail and reaches [on_output]. *)
Theorem appends_are_checked :
  (forall c o,
      wf o ->
      (size o < max_size ->
       exists o', append c o = Done o' /\ wf o'
                  /\ size o' = size o + 1 /\ written o' = written o ++ [c])
      /\ (max_size <= size o -> append c o = AssertionFailed))
  /\ (forall f text,
        append_op f text ->
        forall o, wf o ->
          (size o + Z.of_nat (length text) <= max_size ->
           exists o', f o = Done o' /\ wf o'
                      /\ size o' = size o + Z.of_nat (length text)
                      /\ written o' = written o ++ text)
          /\ (max_size < size o + Z.of_nat (length text) ->
              f o = AssertionFailed))
  /\ (forall fmt a mem st,
        Z.of_nat (length mem) = max_size ->
        scan fmt {| args := a; out := output_buff_new mem |} = Done (tt, st) ->
        0 <= size (out st) <= max_size)
  /\ (forall (D : Type) (HD : disassembler D) fmt a line rest mem (self : D),
        Spec.render (c_chars fmt) a = Some (line, rest) ->
        Z.of_nat (length mem) = max_size ->
        Z.of_nat (length line) + 1 <= max_size ->
        on_format_impl fmt a mem self <> AssertionFailed
        /\ exists buf, on_format_impl fmt a mem self = Done (on_output buf self)
                       /\ c_str buf = line).
Proof.
  split; [|split; [|split]].
  - intros c o Hwf. split.
    + apply append_room, Hwf.
    + apply append_full.
  - intros f text Hop o Hwf. rewrite (append_op_emit f text Hop). split.
    + apply emit_fits, Hwf.
    + apply emit_overflow, Hwf.
  - intros fmt a mem st Hmem Hscan.
    apply (scan_wf fmt a _ st (wf_new mem Hmem) Hscan).
  - intros D HD fmt a line rest mem self Hr Hmem Hfit.
    destruct (on_format_impl_fits fmt a rest line mem self Hr Hmem ltac:(lia))
      as (buf & Hrun & _ & _ & _ & Hstr).
    split; [rewrite Hrun; discriminate|]. eauto.
Qed.

(** C6, as amended: for every format string and matching argument stream
    whose line, with its terminator, fits in the buffer, one call invokes
    [on_output] exactly once, after the whole format string is scanned,
    with a buffer that holds the line followed by NUL; for a longer line
    the call fails the assertion of [append] and [on_output] is not
    invoked. *)
Theorem output_once {D : Type} `{!disassembler D}
    (fmt : string) (a rest : list arg) (line mem : list ascii) (self : D) :
  Spec.render (c_chars fmt) a = Some (line, rest) ->
  Z.of_nat (length mem) = max_size ->
  (Z.of_nat (length line) < max_size ->
   (exists buf,
       on_format_impl fmt a mem self = Done (on_output buf self)
       /\ take (length line) buf = line
       /\ buf !! length line = Some NUL
       /\ c_str buf = line)
   /\ (forall log : list (list ascii),
         on_format_impl fmt a mem log = Done (log ++ [line])))
  /\ (max_size <= Z.of_nat (length line) ->
      on_format_impl fmt a mem self = AssertionFailed
      /\ (forall d', on_format_impl fmt a mem self <> Done d')
      /\ (forall log : list (list ascii),
            on_format_impl fmt a mem log = AssertionFailed)).
Proof.
  intros Hr Hmem. split; intros Hlen.
  - split.
    + destruct (on_format_impl_fits fmt a rest line mem self Hr Hmem Hlen)
        as (buf & Hrun & _ & Htake & Hnul & Hstr). eauto.
    + intros log.
      destruct (on_format_impl_fits fmt a rest line mem log Hr Hmem Hlen)
        as (buf & Hrun & _ & _ & _ & Hstr).
      rewrite Hrun. unfold on_output, recorder. rewrite Hstr. reflexivity.
  - pose proof (on_format_impl_overflow fmt a rest line mem self Hr Hmem Hlen)
      as Hfail.
    split; [exact Hfail|]. split.
    + intros d'. rewrite Hfail. discriminate.
    + intros log.
      exact (on_format_impl_overflow fmt a rest line mem log Hr Hmem Hlen).
Qed.

(** C8: a character of the format string that is none of A, R, P, N, W,
    C, D and L consumes no argument and is appended as it is; the
    characters of the format string that are not directives are found in
    the line in the order they have in the format string, and a format
    string without directives is its own line. *)
Theorem literal_characters :
  (forall c a o,
      Spec.is_directive c = false ->
      wf o -> size o < max_size ->
      exists o', on_format_char c {| args := a; out := o |}
                 = Done (tt, {| args := a; out := o' |})
                 /\ written o' = written o ++ [c])
  /\ (forall (D : Type) (HD : disassembler D) fmt a mem (self d' : D),
        Z.of_nat (length mem) = max_size ->
        on_format_impl fmt a mem self = Done d' ->
        exists buf, d' = on_output buf self
                    /\ Spec.literals (c_chars fmt) `sublist_of` c_str buf
                    /\ (Spec.literals (c_chars fmt) = c_chars fmt ->
                        c_str buf = c_chars fmt)).
Proof.
  split.
  - intros c a o Hlit Hwf Hroom.
    pose proof (directive_text_literal c a Hlit) as Ht.
    destruct (on_format_char_appends _ _ _ _ o Ht Hwf) as [Hok _].
    destruct Hok as (o' & Hrun & _ & _ & Hw); [simpl; lia|]. eauto.
  - intros D HD fmt a mem self d' Hmem Hdone.
    destruct (on_format_impl_Done fmt a mem self d' Hmem Hdone)
      as (line & rest & buf & Hr & _ & -> & _ & _ & _ & Hstr).
    exists buf. split; [reflexivity|]. rewrite Hstr. split.
    + eapply render_literals, Hr.
    + intros Hall. rewrite render_only_literals in Hr.
      * congruence.
      * rewrite <- Hall. unfold Spec.literals.
        apply List.Forall_forall. intros c Hin. apply filter_In in Hin.
        destruct Hin as [_ Hin]. apply negb_true_iff, Hin.
Qed.

(** Two calls on the same format string and arguments end alike, and when
    they reach [on_output] the two buffers hold the same line. *)
Lemma on_format_impl_same_line {D : Type} `{!disassembler D}
    (fmt : string) (a : list arg) (mem1 mem2 : list ascii) (self : D) :
  Z.of_nat (length mem1) = max_size ->
  Z.of_nat (length mem2) = max_size ->
  (exists buf1 buf2,
      on_format_impl fmt a mem1 self = Done (on_output buf1 self)
      /\ on_format_impl fmt a mem2 self = Done (on_output buf2 self)
      /\ c_str buf1 = c_str buf2)
  \/ (on_format_impl fmt a mem1 self = AssertionFailed
      /\ on_format_impl fmt a mem2 self = AssertionFailed)
  \/ (on_format_impl fmt a mem1 self = Undefined
      /\ on_format_impl fmt a mem2 self = Undefined).
Proof.
  intros Hmem1 Hmem2. unfold on_format_impl.
  pose proof (scan_same_text fmt a (output_buff_new mem1) (output_buff_new mem2)
                (wf_new _ Hmem1) (wf_new _ Hmem2) (conj eq_refl eq_refl)) as H.
  destruct (scan fmt {| args := a; out := output_buff_new mem1 |})
    as [[[] st1]| |],
    (scan fmt {| args := a; out := output_buff_new mem2 |})
    as [[[] st2]| |];
    simpl in H; try contradiction; [|tauto|tauto].
  destruct H as (_ & [Hs Hw] & Hwf1 & Hwf2).
  destruct (Z.lt_ge_cases (size (out st1)) max_size) as [Hlt|Hge].
  - destruct (append_room NUL _ Hwf1 Hlt) as (o1 & -> & _ & _ & Hw1).
    destruct (append_room NUL _ Hwf2 ltac:(lia)) as (o2 & -> & _ & _ & Hw2).
    left. exists (get_buff o1), (get_buff o2).
    split; [reflexivity|]. split; [reflexivity|]. unfold get_buff.
    rewrite (buff_written o1), (buff_written o2), Hw1, Hw2, Hw.
    rewrite <- !app_assoc. simpl. rewrite !c_str_app_nul. reflexivity.
  - right. left. rewrite !append_full by lia. tauto.
Qed.

(** C9: two calls with the same format string and the same arguments end
    alike and deliver the same line to [on_output], whatever the array
    held before each call: a disassembler that records its lines ends in
    the same state, and any disassembler is handed two buffers that hold
    the same characters up to the terminator. *)
Theorem formatting_deterministic
    (fmt : string) (a : list arg) (mem1 mem2 : list ascii) :
  Z.of_nat (length mem1) = max_size ->
  Z.of_nat (length mem2) = max_size ->
  (forall log : list (list ascii),
      on_format_impl fmt a mem1 log = on_format_impl fmt a mem2 log)
  /\ (forall (D : Type) (HD : disassembler D) (self : D),
        (exists buf1 buf2,
            on_format_impl fmt a mem1 self = Done (on_output buf1 self)
            /\ on_format_impl fmt a mem2 self = Done (on_output buf2 self)
            /\ c_str buf1 = c_str buf2)
        \/ (on_format_impl fmt a mem1 self = AssertionFailed
            /\ on_format_impl fmt a mem2 self = AssertionFailed)
        \/ (on_format_impl fmt a mem1 self = Undefined
            /\ on_format_impl fmt a mem2 self = Undefined)).
Proof.
  intros Hmem1 Hmem2. split.
  - intros log.
    destruct (on_format_impl_same_line fmt a mem1 mem2 log Hmem1 Hmem2)
      as [(buf1 & buf2 & -> & -> & Hstr)|[[-> ->]|[-> ->]]]; try reflexivity.
    unfold on_output, recorder. rewrite Hstr. reflexivity.
  - intros D HD self. apply on_format_impl_same_line; assumption.
Qed.

(** C10: the terminator is appended by the checked [append]: a call that
    returns handed [on_output] an array of [max_size] characters with the
    terminator inside it, so the line has at most 31 characters; a line of
    31 characters is delivered and a line of 32 fails the assertion. *)
Theorem terminated_line_bound {D : Type} `{!disassembler D}
    (fmt : string) (a : list arg) (mem : list ascii) (self : D) :
  Z.of_nat (length mem) = max_size ->
  (forall d',
      on_format_impl fmt a mem self = Done d' ->
      exists buf,
        d' = on_output buf self
        /\ Z.of_nat (length buf) = max_size
        /\ (length (c_str buf) <= 31)%nat
        /\ buf !! length (c_str buf) = Some NUL)
  /\ (forall line rest,
        Spec.render (c_chars fmt) a = Some (line, rest) ->
        (length line = 31%nat ->
         exists buf, on_format_impl fmt a mem self = Done (on_output buf self)
                     /\ c_str buf = line)
        /\ (length line = 32%nat ->
            on_format_impl fmt a mem self = AssertionFailed)).
Proof.
  intros Hmem. split.
  - intros d' Hdone.
    destruct (on_format_impl_Done fmt a mem self d' Hmem Hdone)
      as (line & rest & buf & Hr & Hlen & -> & Hbuf & _ & Hnul & Hstr).
    exists buf. rewrite Hstr. unfold max_size in *.
    repeat split; try assumption. lia.
  - intros line rest Hr. split; intros Hlen.
    + destruct (on_format_impl_fits fmt a rest line mem self Hr Hmem)
        as (buf & Hrun & _ & _ & _ & Hstr); [unfold max_size; lia|]. eauto.
    + apply (on_format_impl_overflow fmt a rest line mem self Hr Hmem).
      unfold max_size. lia.
Qed.

End Calls.

(** ** The properties at concrete inputs *)

Section Instances.

Lemma wf_stale : wf (output_buff_new stale).
Proof. apply wf_new. reflexivity. Defined.

Local Ltac le_computed := vm_compute; intros Hgt; discriminate Hgt.

Lemma indexed_operand_examples :
  wf (output_buff_new stale)
  /\ (exists o',
        on_format_char "R"
          {| args := [arg_reg reg.at_hl; arg_index_regp index_regp.ix;
                      arg_fast_u8 253];
             out := output_buff_new stale |}
        = Done (tt, {| args := []; out := o' |})
        /\ written o' = lit "(ix-3)")
  /\ (exists o',
        on_format_char "R"
          {| args := [arg_reg reg.at_hl; arg_index_regp index_regp.iy;
                      arg_fast_u8 5];
             out := output_buff_new stale |}
        = Done (tt, {| args := []; out := o' |})
        /\ written o' = lit "(iy+5)")
  /\ (exists o',
        on_format_char "R"
          {| args := [arg_reg reg.at_hl; arg_index_regp index_regp.hl;
                      arg_fast_u8 253];
             out := output_buff_new stale |}
        = Done (tt, {| args := []; out := o' |})
        /\ written o' = lit "(hl)").
Proof.
  split; [exact wf_stale|]. split; [|split].
  - exact (proj2 (proj2 (register_operand_memory_indirect
                           index_regp.ix 253 [] _ wf_stale
                           ltac:(le_computed)))).
  - exact (proj2 (proj2 (register_operand_memory_indirect
                           index_regp.iy 5 [] _ wf_stale
                           ltac:(le_computed)))).
  - exact (proj2 (proj2 (register_operand_memory_indirect
                           index_regp.hl 253 [] _ wf_stale
                           ltac:(le_computed)))).
Defined.

Lemma plain_register_example :
  reg.a <> reg.at_hl
  /\ wf (output_buff_new stale)
  /\ (exists o',
        on_format_char "R"
          {| args := [arg_reg reg.b; arg_index_regp index_regp.hl;
                      arg_fast_u8 0];
             out := output_buff_new stale |}
        = Done (tt, {| args := []; out := o' |})
        /\ written o' = lit "b")
  /\ (exists o',
        on_format_char "R"
          {| args := [arg_reg reg.c; arg_index_regp index_regp.ix;
                      arg_fast_u8 1];
             out := output_buff_new stale |}
        = Done (tt, {| args := []; out := o' |})
        /\ written o' = lit "c")
  /\ (exists o',
        on_format_char "R"
          {| args := [arg_reg reg.d; arg_index_regp index_regp.iy;
                      arg_fast_u8 2];
             out := output_buff_new stale |}
        = Done (tt, {| args := []; out := o' |})
        /\ written o' = lit "d")
  /\ (exists o',
        on_format_char "R"
          {| args := [arg_reg reg.e; arg_index_regp index_regp.hl;
                      arg_fast_u8 127];
             out := output_buff_new stale |}
        = Done (tt, {| args := []; out := o' |})
        /\ written o' = lit "e")
  /\ (exists o',
        on_format_char "R"
          {| args := [arg_reg reg.h; arg_index_regp index_regp.ix;
                      arg_fast_u8 128];
             out := output_buff_new stale |}
        = Done (tt, {| args := []; out := o' |})
        /\ written o' = lit "h")
  /\ (exists o',
        on_format_char "R"
          {| args := [arg_reg reg.l; arg_index_regp index_regp.iy;
                      arg_fast_u8 255];
             out := output_buff_new stale |}
        = Done (tt, {| args := []; out := o' |})
        /\ written o' = lit "l")
  /\ (exists o',
        on_format_char "R"
          {| args := [arg_reg reg.a; arg_index_regp index_regp.ix;
                      arg_fast_u8 7];
             out := output_buff_new stale |}
        = Done (tt, {| args := []; out := o' |})
        /\ written o' = lit "a").
Proof.
  split; [discriminate|]. split; [exact wf_stale|]. repeat apply conj.
  - exact (proj1 (proj2 (register_operand_plain
                           reg.b index_regp.hl 0 [] _
                           ltac:(discriminate) wf_stale ltac:(le_computed)))).
  - exact (proj1 (proj2 (register_operand_plain
                           reg.c index_regp.ix 1 [] _
                           ltac:(discriminate) wf_stale ltac:(le_computed)))).
  - exact (proj1 (proj2 (register_operand_plain
                           reg.d index_regp.iy 2 [] _
                           ltac:(discriminate) wf_stale ltac:(le_computed)))).
  - exact (proj1 (proj2 (register_operand_plain
                           reg.e index_regp.hl 127 [] _
                           ltac:(discriminate) wf_stale ltac:(le_computed)))).
  - exact (proj1 (proj2 (register_operand_plain
                           reg.h index_regp.ix 128 [] _
                           ltac:(discriminate) wf_stale ltac:(le_computed)))).
  - exact (proj1 (proj2 (register_operand_plain
                           reg.l index_regp.iy 255 [] _
                           ltac:(discriminate) wf_stale ltac:(le_computed)))).
  - exact (proj1 (proj2 (register_operand_plain
                           reg.a index_regp.ix 7 [] _
                           ltac:(discriminate) wf_stale ltac:(le_computed)))).
Defined.

Lemma pair_examples :
  wf (output_buff_new stale)
  /\ (exists o',
        on_format_char "P"
          {| args := [arg_regp regp.hl; arg_index_regp index_regp.ix];
             out := output_buff_new stale |}
        = Done (tt, {| args := []; out := o' |})
        /\ written o' = lit "ix")
  /\ (exists o',
        on_format_char "P"
          {| args := [arg_regp regp.hl; arg_index_regp index_regp.hl];
             out := output_buff_new stale |}
        = Done (tt, {| args := []; out := o' |})
        /\ written o' = lit "hl")
  /\ (exists o',
        on_format_char "P"
          {| args := [arg_regp regp.bc; arg_index_regp index_regp.iy];
             out := output_buff_new stale |}
        = Done (tt, {| args := []; out := o' |})
        /\ written o' = lit "bc").
Proof.
  split; [exact wf_stale|]. split; [|split].
  - exact (register_pair_operand regp.hl index_regp.ix [] _ wf_stale
             ltac:(le_computed)).
  - exact (register_pair_operand regp.hl index_regp.hl [] _ wf_stale
             ltac:(le_computed)).
  - exact (register_pair_operand regp.bc index_regp.iy [] _ wf_stale
             ltac:(le_computed)).
Defined.

Lemma alu_examples :
  wf (output_buff_new stale)
  /\ (exists o',
        on_format_char "A"
          {| args := [arg_alu alu.add]; out := output_buff_new stale |}
        = Done (tt, {| args := []; out := o' |})
        /\ written o' = lit "add a,")
  /\ (exists o',
        on_format_char "A"
          {| args := [arg_alu alu.adc]; out := output_buff_new stale |}
        = Done (tt, {| args := []; out := o' |})
        /\ written o' = lit "adc a,")
  /\ (exists o',
        on_format_char "A"
          {| args := [arg_alu alu.sub]; out := output_buff_new stale |}
        = Done (tt, {| args := []; out := o' |})
        /\ written o' = lit "sub")
  /\ (exists o',
        on_format_char "A"
          {| args := [arg_alu alu.sbc]; out := output_buff_new stale |}
        = Done (tt, {| args := []; out := o' |})
        /\ written o' = lit "sbc a,")
  /\ (exists o',
        on_format_char "A"
          {| args := [arg_alu alu.and_a]; out := output_buff_new stale |}
        = Done (tt, {| args := []; out := o' |})
        /\ written o' = lit "and")
  /\ (exists o',
        on_format_char "A"
          {| args := [arg_alu alu.xor_a]; out := output_buff_new stale |}
        = Done (tt, {| args := []; out := o' |})
        /\ written o' = lit "xor")
  /\ (exists o',
        on_format_char "A"
          {| args := [arg_alu alu.or_a]; out := output_buff_new stale |}
        = Done (tt, {| args := []; out := o' |})
        /\ written o' = lit "or")
  /\ (exists o',
        on_format_char "A"
          {| args := [arg_alu alu.cp]; out := output_buff_new stale |}
        = Done (tt, {| args := []; out := o' |})
        /\ written o' = lit "cp").
Proof.
  split; [exact wf_stale|]. repeat apply conj.
  - exact (alu_directive alu.add [] _ wf_stale ltac:(le_computed)).
  - exact (alu_directive alu.adc [] _ wf_stale ltac:(le_computed)).
  - exact (alu_directive alu.sub [] _ wf_stale ltac:(le_computed)).
  - exact (alu_directive alu.sbc [] _ wf_stale ltac:(le_computed)).
  - exact (alu_directive alu.and_a [] _ wf_stale ltac:(le_computed)).
  - exact (alu_directive alu.xor_a [] _ wf_stale ltac:(le_computed)).
  - exact (alu_directive alu.or_a [] _ wf_stale ltac:(le_computed)).
  - exact (alu_directive alu.cp [] _ wf_stale ltac:(le_computed)).
Defined.

Lemma immediate_examples :
  wf (output_buff_new stale)
  /\ (exists o',
        on_format_char "N"
          {| args := [arg_fast_u8 10]; out := output_buff_new stale |}
        = Done (tt, {| args := []; out := o' |})
        /\ written o' = lit "0x0a")
  /\ (exists o',
        on_format_char "W"
          {| args := [arg_fast_u16 4660]; out := output_buff_new stale |}
        = Done (tt, {| args := []; out := o' |})
        /\ written o' = lit "0x1234").
Proof.
  split; [exact wf_stale|]. split.
  - exact (proj2 (proj1 immediate_directives 10 [] _
                    ltac:(lia) wf_stale ltac:(le_computed))).
  - exact (proj2 (proj2 immediate_directives 4660 [] _
                    ltac:(lia) wf_stale ltac:(le_computed))).
Defined.

Local Ltac computed := vm_compute; reflexivity.

Lemma ld_render :
  Spec.render (c_chars ld_fmt) ld_args = Some (lit "ld a,(ix-3)", []).
Proof. computed. Qed.

Lemma ld_run :
  on_format_impl ld_fmt ld_args stale ([] : list (list ascii))
  = Done [lit "ld a,(ix-3)"].
Proof. computed. Qed.

Lemma fmt_31_render : Spec.render (c_chars fmt_31) [] = Some (lit fmt_31, []).
Proof. computed. Qed.

Lemma fmt_32_render : Spec.render (c_chars fmt_32) [] = Some (lit fmt_32, []).
Proof. computed. Qed.

Lemma fmt_31_run :
  on_format_impl fmt_31 [] stale ([] : list (list ascii)) = Done [lit fmt_31].
Proof. computed. Qed.

Lemma checked_append_examples :
  wf (output_buff_new stale)
  /\ (exists o', append "x" (output_buff_new stale) = Done o'
                 /\ wf o' /\ size o' = 1 /\ written o' = lit "x")
  /\ append "x" {| size := 32; buff := stale |} = AssertionFailed
  /\ (exists o', append_u8 10 (output_buff_new stale) = Done o'
                 /\ wf o' /\ size o' = 4 /\ written o' = lit "0x0a")
  /\ append_u8 10 {| size := 29; buff := stale |} = AssertionFailed
  /\ (exists st,
        scan fmt_31 {| args := []; out := output_buff_new stale |}
        = Done (tt, st)
        /\ 0 <= size (out st) <= max_size)
  /\ (on_format_impl ld_fmt ld_args stale ([] : list (list ascii))
      <> AssertionFailed
      /\ exists buf,
          on_format_impl ld_fmt ld_args stale ([] : list (list ascii))
          = Done (on_output buf [])
          /\ c_str buf = lit "ld a,(ix-3)").
Proof.
  assert (Hfull : wf {| size := 32; buff := stale |})
    by (split; [simpl; unfold max_size; lia|reflexivity]).
  assert (Hnear : wf {| size := 29; buff := stale |})
    by (split; [simpl; unfold max_size; lia|reflexivity]).
  split; [exact wf_stale|]. repeat apply conj.
  - exact (proj1 (proj1 appends_are_checked "x"%char _ wf_stale)
             ltac:(reflexivity)).
  - exact (proj2 (proj1 appends_are_checked "x"%char _ Hfull)
             ltac:(le_computed)).
  - exact (proj1 (proj1 (proj2 appends_are_checked) _ _
                    (op_append_u8 10) _ wf_stale)
             ltac:(le_computed)).
  - exact (proj2 (proj1 (proj2 appends_are_checked) _ _
                    (op_append_u8 10) _ Hnear)
             ltac:(reflexivity)).
  - eexists. split; [computed|].
    refine (proj1 (proj2 (proj2 appends_are_checked))
              fmt_31 [] stale _ eq_refl _).
    computed.
  - exact (proj1 (proj2 (proj2 (proj2 appends_are_checked)) _ _
                    ld_fmt ld_args (lit "ld a,(ix-3)") [] stale []
                    ld_render eq_refl ltac:(le_computed))).
  - exact (proj2 (proj2 (proj2 (proj2 appends_are_checked)) _ _
                    ld_fmt ld_args (lit "ld a,(ix-3)") [] stale []
                    ld_render eq_refl ltac:(le_computed))).
Defined.

Lemma delivered_or_failed_examples :
  Spec.render (c_chars ld_fmt) ld_args = Some (lit "ld a,(ix-3)", [])
  /\ Spec.render (c_chars fmt_32) [] = Some (lit fmt_32, [])
  /\ Z.of_nat (length stale) = max_size
  /\ Z.of_nat (length (lit "ld a,(ix-3)")) < max_size
  /\ max_size <= Z.of_nat (length (lit fmt_32))
  /\ (forall log : list (list ascii),
        on_format_impl ld_fmt ld_args stale log
        = Done (log ++ [lit "ld a,(ix-3)"]))
  /\ (forall log : list (list ascii),
        on_format_impl fmt_32 [] stale log = AssertionFailed).
Proof.
  split; [exact ld_render|]. split; [exact fmt_32_render|].
  split; [reflexivity|]. split; [reflexivity|].
  split; [le_computed|]. split.
  - exact (proj2 (proj1 (output_once ld_fmt ld_args [] (lit "ld a,(ix-3)")
                           stale ([] : list (list ascii))
                           ld_render eq_refl)
                    eq_refl)).
  - exact (proj2 (proj2 (proj2 (output_once fmt_32 [] [] (lit fmt_32)
                                  stale ([] : list (list ascii))
                                  fmt_32_render eq_refl)
                           ltac:(le_computed)))).
Defined.

(** A format string of 32 literal characters with no arguments matches
    its (empty) argument stream, and the call fails the assertion of
    [append] instead of invoking [on_output]. *)
Lemma long_line_not_delivered :
  Spec.render (c_chars fmt_32) [] = Some (lit fmt_32, [])
  /\ Z.of_nat (length stale) = max_size
  /\ on_format_impl fmt_32 [] stale ([] : list (list ascii)) = AssertionFailed.
Proof.
  split; [exact fmt_32_render|]. split; [reflexivity|]. computed.
Qed.

Lemma literal_examples :
  Spec.is_directive "," = false
  /\ wf (output_buff_new stale)
  /\ (exists o',
        on_format_char "," {| args := ld_args; out := output_buff_new stale |}
        = Done (tt, {| args := ld_args; out := o' |})
        /\ written o' = lit ",")
  /\ (exists buf,
        [lit "ld a,(ix-3)"] = on_output buf ([] : list (list ascii))
        /\ lit "ld ," `sublist_of` c_str buf
        /\ (lit "ld ," = lit "ld R,R" -> c_str buf = lit "ld R,R")).
Proof.
  split; [reflexivity|]. split; [exact wf_stale|]. split.
  - exact (proj1 literal_characters ","%char ld_args _ eq_refl wf_stale
             ltac:(reflexivity)).
  - exact (proj2 literal_characters _ recorder ld_fmt ld_args stale []
             [lit "ld a,(ix-3)"] eq_refl ld_run).
Defined.

Lemma same_line_from_two_arrays :
  Z.of_nat (length stale) = max_size
  /\ Z.of_nat (length (replicate 32 "x"%char)) = max_size
  /\ on_format_impl ld_fmt ld_args stale [] 
     = on_format_impl ld_fmt ld_args (replicate 32 "x"%char) [].
Proof.
  split; [reflexivity|]. split; [reflexivity|].
  exact (proj1 (formatting_deterministic ld_fmt ld_args stale
                  (replicate 32 "x"%char) eq_refl eq_refl) []).
Defined.

Lemma line_of_31_examples :
  Z.of_nat (length stale) = max_size
  /\ (exists buf,
        [lit fmt_31] = on_output buf ([] : list (list ascii))
        /\ Z.of_nat (length buf) = max_size
        /\ (length (c_str buf) <= 31)%nat
        /\ buf !! length (c_str buf) = Some NUL)
  /\ (exists buf,
        on_format_impl fmt_31 [] stale ([] : list (list ascii))
        = Done (on_output buf [])
        /\ c_str buf = lit fmt_31)
  /\ on_format_impl fmt_32 [] stale ([] : list (list ascii)) = AssertionFailed.
Proof.
  split; [reflexivity|]. repeat apply conj.
  - exact (proj1 (terminated_line_bound fmt_31 [] stale
                    ([] : list (list ascii)) eq_refl) [lit fmt_31] fmt_31_run).
  - exact (proj1 (proj2 (terminated_line_bound fmt_31 [] stale
                           ([] : list (list ascii)) eq_refl)
                    (lit fmt_31) [] fmt_31_render) eq_refl).
  - exact (proj2 (proj2 (terminated_line_bound fmt_32 [] stale
                           ([] : list (list ascii)) eq_refl)
                    (lit fmt_32) [] fmt_32_render) eq_refl).
Defined.

(** The lines of the specification's examples, through whole calls. *)

Example add_a_immediate :
  on_format_impl "A N" [arg_alu alu.add; arg_fast_u8 10] stale []
  = Done [lit "add a, 0x0a"].
Proof. vm_compute. reflexivity. Qed.

Example and_register :
  on_format_impl "A R"
    [arg_alu alu.and_a; arg_reg reg.b; arg_index_regp index_regp.iy;
     arg_fast_u8 200] stale []
  = Done [lit "and b"].
Proof. vm_compute. reflexivity. Qed.

Example relative_targets :
  on_format_impl "jr D" [arg_int (-5)] stale [] = Done [lit "jr $-5"]
  /\ on_format_impl "jr D" [arg_int 5] stale [] = Done [lit "jr $+5"].
Proof. split; vm_compute; reflexivity. Qed.

Example word_immediate :
  on_format_impl "ld P,W"
    [arg_regp regp.hl; arg_index_regp index_regp.iy; arg_fast_u16 4660]
    stale []
  = Done [lit "ld iy,0x1234"].
Proof. vm_compute. reflexivity. Qed.

Example condition_and_block :
  on_format_impl "ret C" [arg_condition condition.nz] stale []
  = Done [lit "ret nz"]
  /\ on_format_impl "L" [arg_block_ld block_ld.lddr] stale []
     = Done [lit "lddr"].
Proof. split; vm_compute; reflexivity. Qed.

Example missing_argument :
  on_format_impl "ld R,R" [arg_reg reg.a] stale ([] : list (list ascii))
  = Undefined.
Proof. vm_compute. reflexivity. Qed.

End Instances.

(** * Further properties of the code *)

(** ** The name tables *)

Section NameTables.

(** X1: each name table gives different names to different values, so a
    name in a line determines the value it was printed from; the table of
    register pairs does so under each context. *)
Theorem name_tables_injective :
  (forall r1 r2, get_reg_name r1 = get_reg_name r2 -> r1 = r2)
  /\ (forall irp1 irp2,
        get_index_reg_name irp1 = get_index_reg_name irp2 -> irp1 = irp2)
  /\ (forall irp rp1 rp2,
        get_reg_name_rp rp1 irp = get_reg_name_rp rp2 irp -> rp1 = rp2)
  /\ (forall k1 k2, get_mnemonic k1 = get_mnemonic k2 -> k1 = k2)
  /\ (forall k1 k2,
        get_mnemonic_block_ld k1 = get_mnemonic_block_ld k2 -> k1 = k2)
  /\ (forall cc1 cc2,
        get_condition_name cc1 = get_condition_name cc2 -> cc1 = cc2).
Proof.
  repeat apply conj.
  - intros [] []; simpl; intros H; solve [reflexivity | discriminate H].
  - intros [] []; simpl; intros H; solve [reflexivity | discriminate H].
  - intros [] [] []; simpl; intros H; solve [reflexivity | discriminate H].
  - intros [] []; simpl; intros H; solve [reflexivity | discriminate H].
  - intros [] []; simpl; intros H; solve [reflexivity | discriminate H].
  - intros [] []; simpl; intros H; solve [reflexivity | discriminate H].
Qed.

Lemma names_determine_values :
  get_reg_name reg.h = get_reg_name reg.h
  /\ reg.h = reg.h
  /\ condition.c = condition.c
  /\ regp.hl = regp.hl.
Proof.
  split; [reflexivity|]. repeat apply conj.
  - exact (proj1 name_tables_injective reg.h reg.h eq_refl).
  - exact (proj2 (proj2 (proj2 (proj2 (proj2 name_tables_injective))))
             condition.c condition.c eq_refl).
  - exact (proj1 (proj2 (proj2 name_tables_injective))
             index_regp.iy regp.hl regp.hl eq_refl).
Defined.

(** X2: the two tables of index-register names agree, so the pair hl under
    a context and the memory operand under the same context name the same
    register. *)
Theorem index_register_names_agree (irp : index_regp.t) :
  get_reg_name_irp irp = get_index_reg_name irp
  /\ get_reg_name_rp regp.hl irp = get_index_reg_name irp.
Proof. destruct irp; split; reflexivity. Qed.

End NameTables.

(** ** The remaining directives *)

Section MoreDirectives.

Implicit Types (o : output_buff) (rest : list arg).

(** A number of at least [base ^ k] takes more than [k] digits. *)
Lemma utoa_long (base : Z) :
  1 < base ->
  forall (k fuel : nat) (n : Z),
    base ^ Z.of_nat k <= n -> (k < fuel)%nat ->
    (k < length (utoa base fuel n []))%nat.
Proof.
  intros Hb. induction k as [|k IH]; intros fuel n Hn Hk;
    (destruct fuel as [|fuel]; [lia|]); simpl.
  - destruct (n / base =? 0); simpl; [lia|].
    rewrite utoa_acc, length_app. simpl. lia.
  - rewrite Nat2Z.inj_succ, Z.pow_succ_r in Hn by lia.
    assert (Hpow : 0 < base ^ Z.of_nat k) by (apply Z.pow_pos_nonneg; lia).
    assert (Hq : base ^ Z.of_nat k <= n / base)
      by (apply Z.div_le_lower_bound; lia).
    destruct (Z.eqb_spec (n / base) 0) as [Hz|_]; [lia|].
    rewrite utoa_acc, length_app. simpl.
    specialize (IH fuel (n / base) Hq). lia.
Qed.

(** X3: the condition directive 'C' consumes one argument and appends the
    name of the condition: "nz", "z", "nc", "c", "po", "pe", "p" or "m",
    each for the condition of that name. *)
Theorem condition_directive (cc : condition.t) rest o :
  wf o ->
  let name :=
    match cc with
    | condition.nz => lit "nz"
    | condition.z => lit "z"
    | condition.nc => lit "nc"
    | condition.c => lit "c"
    | condition.po => lit "po"
    | condition.pe => lit "pe"
    | condition.p => lit "p"
    | condition.m => lit "m"
    end in
  size o + Z.of_nat (length name) <= max_size ->
  (1 <= length name <= 2)%nat
  /\ exists o',
      on_format_char "C" {| args := arg_condition cc :: rest; out := o |}
      = Done (tt, {| args := rest; out := o' |})
      /\ written o' = written o ++ name.
Proof.
  intros Hwf name Hfit. split.
  - unfold name. destruct cc; simpl; lia.
  - assert (Ht : Spec.directive_text "C" (arg_condition cc :: rest)
                 = Some (name, rest)).
    { unfold name. destruct cc; reflexivity. }
    destruct (on_format_char_appends _ _ _ _ o Ht Hwf) as [Hok _].
    destruct (Hok Hfit) as (o' & Hrun & _ & _ & Hw). eauto.
Qed.

(** X4: the relative-address directive 'D' consumes one [int] and appends
    "$" and the value in decimal with its sign, "+" for zero and above,
    without padding. *)
Theorem relative_address_directive (d : Z) rest o :
  - 2 ^ 31 <= d < 2 ^ 31 -> wf o ->
  let text := lit "$" ++ conv_plus_d d in
  size o + Z.of_nat (length text) <= max_size ->
  Spec.signed_decimal d (conv_plus_d d)
  /\ (3 <= length text <= 12)%nat
  /\ exists o',
      on_format_char "D" {| args := arg_int d :: rest; out := o |}
      = Done (tt, {| args := rest; out := o' |})
      /\ written o' = written o ++ text.
Proof.
  intros Hd Hwf text Hfit. split; [|split].
  - apply conv_plus_d_signed_decimal, Hd.
  - unfold text. pose proof (conv_plus_d_length d) as Hmax.
    pose proof (utoa_long 10 ltac:(lia) 0 10 (Z.abs d)) as Hmin.
    unfold conv_plus_d in *. simpl in *.
    destruct (Z.eq_dec d 0) as [->|Hnz]; [simpl; lia|].
    specialize (Hmin ltac:(lia) ltac:(lia)). lia.
  - assert (Ht : Spec.directive_text "D" (arg_int d :: rest)
                 = Some (text, rest)).
    { change (Spec.directive_text "D" (arg_int d :: rest))
        with (Some (lit "$" ++ conv_plus_d (to_int d), rest)).
      rewrite to_int_small by exact Hd. reflexivity. }
    destruct (on_format_char_appends _ _ _ _ o Ht Hwf) as [Hok _].
    destruct (Hok Hfit) as (o' & Hrun & _ & _ & Hw). eauto.
Qed.

(** X5: the block-transfer directive 'L' consumes one argument and appends
    the mnemonic of the operation: "ldi", "ldd", "ldir" or "lddr", each
    for the operation of that name. *)
Theorem block_transfer_directive (k : block_ld.t) rest o :
  wf o ->
  let name :=
    match k with
    | block_ld.ldi => lit "ldi"
    | block_ld.ldd => lit "ldd"
    | block_ld.ldir => lit "ldir"
    | block_ld.lddr => lit "lddr"
    end in
  size o + Z.of_nat (length name) <= max_size ->
  (3 <= length name <= 4)%nat
  /\ exists o',
      on_format_char "L" {| args := arg_block_ld k :: rest; out := o |}
      = Done (tt, {| args := rest; out := o' |})
      /\ written o' = written o ++ name.
Proof.
  intros Hwf name Hfit. split.
  - unfold name. destruct k; simpl; lia.
  - assert (Ht : Spec.directive_text "L" (arg_block_ld k :: rest)
                 = Some (name, rest)).
    { unfold name. destruct k; reflexivity. }
    destruct (on_format_char_appends _ _ _ _ o Ht Hwf) as [Hok _].
    destruct (Hok Hfit) as (o' & Hrun & _ & _ & Hw). eauto.
Qed.

End MoreDirectives.

(** ** The argument cursor *)

Section Arguments.

Local Ltac case_char c name :=
  destruct (Ascii.eqb_spec c name) as [->|?].

Lemma directive_text_arity (c : ascii) (a rest : list arg) (t : list ascii) :
  Spec.directive_text c a = Some (t, rest) ->
  exists used, a = used ++ rest /\ length used = arity c.
Proof.
  unfold Spec.directive_text, arity. simpl existsb.
  case_char c "A"%char.
  { destruct a as [|[] a']; try discriminate. intros [= <- <-].
    eexists [_]. split; reflexivity. }
  case_char c "R"%char.
  { destruct a as [|[] [|[] [|[] a']]]; try discriminate. intros [= <- <-].
    eexists [_; _; _]. split; reflexivity. }
  case_char c "P"%char.
  { destruct a as [|[] [|[] a']]; try discriminate. intros [= <- <-].
    eexists [_; _]. split; reflexivity. }
  case_char c "N"%char.
  { destruct a as [|[] a']; try discriminate. intros [= <- <-].
    eexists [_]. split; reflexivity. }
  case_char c "W"%char.
  { destruct a as [|[] a']; try discriminate. intros [= <- <-].
    eexists [_]. split; reflexivity. }
  case_char c "C"%char.
  { destruct a as [|[] a']; try discriminate. intros [= <- <-].
    eexists [_]. split; reflexivity. }
  case_char c "D"%char.
  { destruct a as [|[] a']; try discriminate. intros [= <- <-].
    eexists [_]. split; reflexivity. }
  case_char c "L"%char.
  { destruct a as [|[] a']; try discriminate. intros [= <- <-].
    eexists [_]. split; reflexivity. }
  intros [= <- <-]. exists []. split; reflexivity.
Qed.

Lemma render_arity (fmt : list ascii) :
  forall a line rest,
    Spec.render fmt a = Some (line, rest) ->
    exists used, a = used ++ rest /\ length used = sum_list (arity <$> fmt).
Proof.
  induction fmt as [|c fmt IH]; intros a line rest.
  { intros [= <- <-]. exists []. split; reflexivity. }
  change (sum_list (arity <$> c :: fmt))
    with (arity c + sum_list (arity <$> fmt))%nat.
  simpl (Spec.render _ _).
  destruct (Spec.directive_text c a) as [[t a']|] eqn:Ht; [|discriminate].
  destruct (Spec.render fmt a') as [[line' rest']|] eqn:Hr; [|discriminate].
  intros [= <- <-].
  destruct (directive_text_arity _ _ _ _ Ht) as (u1 & -> & Hu1).
  destruct (IH _ _ _ Hr) as (u2 & -> & Hu2).
  exists (u1 ++ u2). rewrite length_app, <- app_assoc. split; [reflexivity|lia].
Qed.

Lemma directive_text_surplus (c : ascii) (a rest extra : list arg)
      (t : list ascii) :
  Spec.directive_text c a = Some (t, rest) ->
  Spec.directive_text c (a ++ extra) = Some (t, rest ++ extra).
Proof.
  unfold Spec.directive_text.
  destruct (Ascii.eqb c "A").
  { destruct a as [|[] a']; try discriminate. intros [= <- <-]. reflexivity. }
  destruct (Ascii.eqb c "R").
  { destruct a as [|[] [|[] [|[] a']]]; try discriminate.
    intros [= <- <-]. reflexivity. }
  destruct (Ascii.eqb c "P").
  { destruct a as [|[] [|[] a']]; try discriminate.
    intros [= <- <-]. reflexivity. }
  destruct (Ascii.eqb c "N").
  { destruct a as [|[] a']; try discriminate. intros [= <- <-]. reflexivity. }
  destruct (Ascii.eqb c "W").
  { destruct a as [|[] a']; try discriminate. intros [= <- <-]. reflexivity. }
  destruct (Ascii.eqb c "C").
  { destruct a as [|[] a']; try discriminate. intros [= <- <-]. reflexivity. }
  destruct (Ascii.eqb c "D").
  { destruct a as [|[] a']; try discriminate. intros [= <- <-]. reflexivity. }
  destruct (Ascii.eqb c "L").
  { destruct a as [|[] a']; try discriminate. intros [= <- <-]. reflexivity. }
  intros [= <- <-]. reflexivity.
Qed.

Lemma render_surplus (fmt : list ascii) (extra : list arg) :
  forall a line rest,
    Spec.render fmt a = Some (line, rest) ->
    Spec.render fmt (a ++ extra) = Some (line, rest ++ extra).
Proof.
  induction fmt as [|c fmt IH]; intros a line rest; simpl.
  { intros [= <- <-]. reflexivity. }
  destruct (Spec.directive_text c a) as [[t a']|] eqn:Ht; [|discriminate].
  destruct (Spec.render fmt a') as [[line' rest']|] eqn:Hr; [|discriminate].
  intros [= <- <-].
  rewrite (directive_text_surplus _ _ _ extra _ Ht), (IH _ _ _ Hr). reflexivity.
Qed.

(** X7: a scan that comes to its end has read its arguments from the
    front of the array, in order, as many as the directives of the format
    string read in their cases of the [switch]: three for 'R', two for
    'P', one for each of 'A', 'N', 'W', 'C', 'D' and 'L', none for any
    other character; the arguments after them are left as they were. *)
Theorem scan_consumes_arity
    (fmt : string) (a : list arg) (o : output_buff) (st : fmt_state) :
  scan fmt {| args := a; out := o |} = Done (tt, st) ->
  exists used,
    a = used ++ args st
    /\ length used = sum_list (arity <$> c_chars fmt).
Proof.
  intros Hscan.
  destruct (scan_Done_render fmt a o st Hscan) as (line & Hr).
  exact (render_arity _ _ _ _ Hr).
Qed.

(** X8: arguments after the ones the directives read are never looked
    at: a call whose format string reads all of [a] does the same with any
    arguments added after [a]. *)
Theorem surplus_arguments_ignored {D : Type} `{!disassembler D}
    (fmt : string) (a extra : list arg) (mem : list ascii) (self : D)
    (st : fmt_state) :
  scan fmt {| args := a; out := output_buff_new mem |} = Done (tt, st) ->
  args st = [] ->
  on_format_impl fmt (a ++ extra) mem self = on_format_impl fmt a mem self.
Proof.
  intros Hscan Hnil.
  destruct (scan_Done_render fmt a _ st Hscan) as (line & Hr).
  rewrite Hnil in Hr. pose proof (render_surplus _ extra _ _ _ Hr) as Hr'.
  unfold on_format_impl.
  rewrite (scan_render _ _ _ _ _ Hr), (scan_render _ _ _ _ _ Hr').
  unfold on_out. cbn [args out].
  destruct (emit line (output_buff_new mem)); reflexivity.
Qed.

End Arguments.

(** ** The scan of the format string *)

Section Scan.

(** X9: scanning a format string made of two parts is scanning the first
    part and then the second, on the arguments and the buffer the first
    part leaves, when the first part holds no NUL. *)
Theorem scan_append (s1 s2 : string) (st : fmt_state) :
  Forall (fun c => c <> NUL) (list_ascii_of_string s1) ->
  scan (s1 ++ s2) st = (scan s1;;; scan s2) st.
Proof.
  revert st. induction s1 as [|c p IH]; intros st Hs1.
  { simpl. unfold bind, ret. reflexivity. }
  simpl in Hs1. apply Forall_cons in Hs1. destruct Hs1 as [Hc Hp].
  simpl. unfold is_nul. apply Ascii.eqb_neq in Hc. rewrite Hc.
  unfold bind at 1 2 3.
  destruct (on_format_char c st) as [[[] st']| |]; try reflexivity.
  rewrite (IH st' Hp). reflexivity.
Qed.

Lemma scan_stops_at_nul (s1 s2 : string) :
  forall st, scan (s1 ++ String NUL s2) st = scan s1 st.
Proof.
  induction s1 as [|c p IH]; intros st; [reflexivity|].
  simpl. destruct (is_nul c); [reflexivity|].
  unfold bind. destruct (on_format_char c st) as [[[] st']| |]; try reflexivity.
  apply IH.
Qed.

(** X10: the format string ends at its first NUL: what follows a NUL has
    no effect on the call. *)
Theorem format_ends_at_nul {D : Type} `{!disassembler D}
    (s1 s2 : string) (a : list arg) (mem : list ascii) (self : D) :
  on_format_impl (s1 ++ String NUL s2) a mem self
  = on_format_impl s1 a mem self.
Proof. unfold on_format_impl. rewrite scan_stops_at_nul. reflexivity. Qed.

End Scan.

(** ** The array after a call *)

Section Frame.

Lemma append_frame (c : ascii) (o o' : output_buff) (k : nat) :
  append c o = Done o' -> (Z.to_nat (size o) < k)%nat ->
  drop k (buff o') = drop k (buff o).
Proof.
  unfold append. destruct (size o <? max_size); [|discriminate].
  intros [= <-] Hk. simpl. apply drop_insert_lt, Hk.
Qed.

Lemma emit_Done_text (l : list ascii) (o o' : output_buff) :
  wf o -> emit l o = Done o' ->
  wf o' /\ size o' = size o + Z.of_nat (length l)
  /\ written o' = written o ++ l.
Proof.
  intros Hwf H.
  destruct (Z.le_gt_cases (size o + Z.of_nat (length l)) max_size) as [Hle|Hgt].
  - destruct (emit_fits l o Hwf Hle) as (o1 & H1 & ?).
    assert (o1 = o') as -> by congruence. assumption.
  - rewrite emit_overflow in H by (assumption || lia). discriminate.
Qed.

Lemma emit_frame (l : list ascii) :
  forall o o', wf o -> emit l o = Done o' ->
    drop (Z.to_nat (size o')) (buff o') = drop (Z.to_nat (size o')) (buff o).
Proof.
  induction l as [|c l IH]; intros o o' Hwf H; simpl in H.
  { injection H as <-. reflexivity. }
  destruct (append c o) as [o1| |] eqn:Happ; try discriminate. simpl in H.
  destruct (append_Done c o o1 Hwf Happ) as (_ & Hwf1 & Hs1 & _).
  destruct (emit_Done_text l o1 o' Hwf1 H) as (_ & Hs' & _).
  rewrite (IH o1 o' Hwf1 H). apply (append_frame c o o1 _ Happ).
  destruct Hwf as [? _]. lia.
Qed.

(** X11: a call that returns has written the line and the terminator at
    the start of the array and nothing after them: [on_output] is given
    the line, a NUL, and then what the array held there before the call;
    the line holds no NUL and at most 31 characters. *)
Theorem buffer_after_call {D : Type} `{!disassembler D}
    (fmt : string) (a : list arg) (mem : list ascii) (self d' : D) :
  Z.of_nat (length mem) = max_size ->
  on_format_impl fmt a mem self = Done d' ->
  exists line,
    d' = on_output (line ++ NUL :: drop (S (length line)) mem) self
    /\ Forall (fun c => c <> NUL) line
    /\ (length line <= 31)%nat.
Proof.
  intros Hmem Hdone. unfold on_format_impl in Hdone.
  destruct (scan fmt _) as [[[] st]| |] eqn:Hscan; try discriminate.
  destruct (append NUL (out st)) as [o2| |] eqn:Happ; try discriminate.
  injection Hdone as <-. destruct st as [ast o1'].
  destruct (scan_Done_render _ _ _ _ Hscan) as (line & Hr).
  rewrite (scan_render _ _ _ _ _ Hr) in Hscan. unfold on_out in Hscan.
  cbn [args out] in Hscan.
  destruct (emit line (output_buff_new mem)) as [o1| |] eqn:Hemit;
    try discriminate.
  injection Hscan as Hst. subst o1'. cbn [out] in Happ.
  pose proof (wf_new mem Hmem) as Hwf0.
  destruct (emit_Done_text _ _ _ Hwf0 Hemit) as (Hwf1 & Hs1 & Hw1).
  pose proof (emit_frame _ _ _ Hwf0 Hemit) as Hf1.
  simpl in Hs1, Hf1. rewrite written_new in Hw1. simpl in Hw1.
  destruct (append_Done NUL o1 o2 Hwf1 Happ) as (Hroom & Hwf2 & Hs2 & Hw2 & _).
  pose proof (append_frame NUL o1 o2 (S (length line)) Happ ltac:(lia)) as Hf2.
  exists line. split; [|split].
  - f_equal. unfold get_buff. rewrite (buff_written o2), Hw2, Hw1.
    replace (Z.to_nat (size o2)) with (S (length line)) by lia.
    rewrite Hf2. replace (Z.to_nat (size o1)) with (length line) in Hf1 by lia.
    rewrite <- app_assoc. simpl. do 2 f_equal.
    change (S (length line)) with (1 + length line)%nat.
    rewrite Nat.add_comm, <- !drop_drop, Hf1. reflexivity.
  - eapply render_no_nul; [apply c_chars_no_nul|exact Hr].
  - unfold max_size in *. lia.
Qed.

End Frame.

(** ** The length of the line *)

Section Lengths.

Lemma conv_plus_d_byte_length (d : Z) :
  (length (conv_plus_d (sign_extend8 d)) <= 4)%nat.
Proof.
  unfold conv_plus_d. pose proof (sign_extend8_range d) as Hv.
  pose proof (utoa_short 10 3 ltac:(lia) 10 (Z.abs (sign_extend8 d))
                ltac:(simpl; lia) ltac:(lia)).
  cbn [length]. lia.
Qed.

Lemma utoa_not_nil (base : Z) (fuel : nat) (n : Z) :
  (0 < fuel)%nat -> utoa base fuel n [] <> [].
Proof.
  destruct fuel as [|fuel]; [lia|]. intros _. simpl.
  destruct (n / base =? 0); [discriminate|].
  rewrite utoa_acc. intros H. apply app_eq_nil in H. destruct H; discriminate.
Qed.

Lemma hex_text_length (width : nat) (n : Z) :
  (width <= 8)%nat -> (3 <= length (Spec.hex_text width n) <= 10)%nat.
Proof.
  intros Hw. unfold Spec.hex_text. rewrite length_app.
  pose proof (conv_0x_length width (to_unsigned n) Hw) as Hmax.
  assert (Hne : conv_0x width (to_unsigned n) <> []).
  { unfold conv_0x, zero_pad. intros Hnil. apply app_eq_nil in Hnil.
    destruct Hnil as [_ Hnil]. revert Hnil. apply utoa_not_nil. lia. }
  destruct (conv_0x width (to_unsigned n)); [congruence|]. simpl in *. lia.
Qed.

(** Each character of the format string appends at least one character
    and at most twelve. *)
Lemma directive_text_length (c : ascii) (a rest : list arg) (t : list ascii) :
  Spec.directive_text c a = Some (t, rest) -> (1 <= length t <= 12)%nat.
Proof.
  unfold Spec.directive_text.
  destruct (Ascii.eqb c "A").
  { destruct a as [|[] a']; try discriminate. intros [= <- <-].
    destruct k; simpl; lia. }
  destruct (Ascii.eqb c "R").
  { destruct a as [|[] [|[] [|[] a']]]; try discriminate. intros [= <- <-].
    pose proof (conv_plus_d_byte_length n) as Hd. unfold Spec.register_text.
    set (disp := conv_plus_d (sign_extend8 n)) in *. clearbody disp.
    destruct r, irp; rewrite ?length_app; simpl; lia. }
  destruct (Ascii.eqb c "P").
  { destruct a as [|[] [|[] a']]; try discriminate. intros [= <- <-].
    destruct rp, irp; simpl; lia. }
  destruct (Ascii.eqb c "N").
  { destruct a as [|[] a']; try discriminate. intros [= <- <-].
    pose proof (hex_text_length 2 n). lia. }
  destruct (Ascii.eqb c "W").
  { destruct a as [|[] a']; try discriminate. intros [= <- <-].
    pose proof (hex_text_length 4 nn). lia. }
  destruct (Ascii.eqb c "C").
  { destruct a as [|[] a']; try discriminate. intros [= <- <-].
    destruct cc; simpl; lia. }
  destruct (Ascii.eqb c "D").
  { destruct a as [|[] a']; try discriminate. intros [= <- <-].
    pose proof (conv_plus_d_length (to_int d)) as Hd.
    set (disp := conv_plus_d (to_int d)) in *. clearbody disp.
    simpl. lia. }
  destruct (Ascii.eqb c "L").
  { destruct a as [|[] a']; try discriminate. intros [= <- <-].
    destruct k; simpl; lia. }
  intros [= <- <-]. simpl. lia.
Qed.

Lemma render_length (fmt : list ascii) :
  forall a line rest,
    Spec.render fmt a = Some (line, rest) ->
    (length fmt <= length line <= 12 * length fmt)%nat.
Proof.
  induction fmt as [|c fmt IH]; intros a line rest; simpl.
  { intros [= <- <-]. simpl. lia. }
  destruct (Spec.directive_text c a) as [[t a']|] eqn:Ht; [|discriminate].
  destruct (Spec.render fmt a') as [[line' rest']|] eqn:Hr; [|discriminate].
  intros [= <- <-]. rewrite length_app.
  pose proof (directive_text_length _ _ _ _ Ht).
  pose proof (IH _ _ _ Hr). lia.
Qed.

(** X12: every character of the format string, directive or not, adds at
    least one character and at most twelve to the line, so the line of a
    call that returns is at least as long as the format string and at most
    twelve times as long; a call on a format string of 32 characters or
    more does not return. *)
Theorem line_length_bounds {D : Type} `{!disassembler D}
    (fmt : string) (a : list arg) (mem : list ascii) (self d' : D) :
  Z.of_nat (length mem) = max_size ->
  on_format_impl fmt a mem self = Done d' ->
  (length (c_chars fmt) <= 31)%nat
  /\ exists buf,
      d' = on_output buf self
      /\ (length (c_chars fmt) <= length (c_str buf)
          <= 12 * length (c_chars fmt))%nat.
Proof.
  intros Hmem Hdone.
  destruct (on_format_impl_Done fmt a mem self d' Hmem Hdone)
    as (line & rest & buf & Hr & Hlen & -> & _ & _ & _ & Hstr).
  pose proof (render_length _ _ _ _ Hr) as Hb. unfold max_size in Hlen.
  split; [lia|]. exists buf. rewrite Hstr. split; [reflexivity|exact Hb].
Qed.

(** X13: when the arguments are the ones the directives read, the outcome
    of the call depends on the length of the line alone: up to 31
    characters the line is handed to [on_output], from 32 on the call
    fails the assertion of [append], wherever in the line the buffer runs
    out; the outcome is never the undefined one. *)
Theorem matching_call_outcome {D : Type} `{!disassembler D}
    (fmt : string) (a rest : list arg) (line mem : list ascii) (self : D) :
  Spec.render (c_chars fmt) a = Some (line, rest) ->
  Z.of_nat (length mem) = max_size ->
  ((length line <= 31)%nat ->
   exists buf, on_format_impl fmt a mem self = Done (on_output buf self)
               /\ c_str buf = line)
  /\ ((32 <= length line)%nat ->
      on_format_impl fmt a mem self = AssertionFailed)
  /\ on_format_impl fmt a mem self <> Undefined.
Proof.
  intros Hr Hmem.
  assert (Hfit : (length line <= 31)%nat ->
                 exists buf, on_format_impl fmt a mem self
                             = Done (on_output buf self)
                             /\ c_str buf = line).
  { intros Hlen.
    destruct (on_format_impl_fits fmt a rest line mem self Hr Hmem)
      as (buf & Hrun & _ & _ & _ & Hstr); [unfold max_size; lia|]. eauto. }
  assert (Hover : (32 <= length line)%nat ->
                  on_format_impl fmt a mem self = AssertionFailed).
  { intros Hlen. apply (on_format_impl_overflow fmt a rest line mem self Hr Hmem).
    unfold max_size. lia. }
  split; [exact Hfit|]. split; [exact Hover|].
  destruct (Nat.le_gt_cases (length line) 31) as [Hle|Hgt].
  - destruct (Hfit Hle) as (buf & -> & _). discriminate.
  - rewrite Hover by lia. discriminate.
Qed.

End Lengths.

(** ** The further properties at concrete inputs *)

Section MoreInstances.

Local Ltac computed := vm_compute; reflexivity.
Local Ltac le_computed := vm_compute; intros Hgt; discriminate Hgt.

Lemma mixed_render :
  Spec.render (c_chars mixed_fmt) mixed_args
  = Some (lit "suba,sp;0xff0x0000pe$+0ldi", []).
Proof. computed. Qed.

Lemma mixed_scan :
  scan mixed_fmt {| args := mixed_args; out := output_buff_new stale |}
  = Done (tt, mixed_state).
Proof. computed. Qed.

Lemma surplus_scan :
  scan mixed_fmt
    {| args := mixed_args ++ [arg_int 7]; out := output_buff_new stale |}
  = Done (tt, surplus_state).
Proof. computed. Qed.

Lemma mixed_run :
  on_format_impl mixed_fmt mixed_args stale ([] : list (list ascii))
  = Done [lit "suba,sp;0xff0x0000pe$+0ldi"].
Proof. computed. Qed.

Lemma condition_example :
  wf (output_buff_new stale)
  /\ (exists o',
        on_format_char "C"
          {| args := [arg_condition condition.nz];
             out := output_buff_new stale |}
        = Done (tt, {| args := []; out := o' |})
        /\ written o' = lit "nz")
  /\ (exists o',
        on_format_char "C"
          {| args := [arg_condition condition.z];
             out := output_buff_new stale |}
        = Done (tt, {| args := []; out := o' |})
        /\ written o' = lit "z")
  /\ (exists o',
        on_format_char "C"
          {| args := [arg_condition condition.nc];
             out := output_buff_new stale |}
        = Done (tt, {| args := []; out := o' |})
        /\ written o' = lit "nc")
  /\ (exists o',
        on_format_char "C"
          {| args := [arg_condition condition.c];
             out := output_buff_new stale |}
        = Done (tt, {| args := []; out := o' |})
        /\ written o' = lit "c")
  /\ (exists o',
        on_format_char "C"
          {| args := [arg_condition condition.po];
             out := output_buff_new stale |}
        = Done (tt, {| args := []; out := o' |})
        /\ written o' = lit "po")
  /\ (exists o',
        on_format_char "C"
          {| args := [arg_condition condition.pe];
             out := output_buff_new stale |}
        = Done (tt, {| args := []; out := o' |})
        /\ written o' = lit "pe")
  /\ (exists o',
        on_format_char "C"
          {| args := [arg_condition condition.p];
             out := output_buff_new stale |}
        = Done (tt, {| args := []; out := o' |})
        /\ written o' = lit "p")
  /\ (exists o',
        on_format_char "C"
          {| args := [arg_condition condition.m];
             out := output_buff_new stale |}
        = Done (tt, {| args := []; out := o' |})
        /\ written o' = lit "m").
Proof.
  split; [exact wf_stale|]. repeat apply conj.
  - exact (proj2 (condition_directive condition.nz [] _ wf_stale
                    ltac:(le_computed))).
  - exact (proj2 (condition_directive condition.z [] _ wf_stale
                    ltac:(le_computed))).
  - exact (proj2 (condition_directive condition.nc [] _ wf_stale
                    ltac:(le_computed))).
  - exact (proj2 (condition_directive condition.c [] _ wf_stale
                    ltac:(le_computed))).
  - exact (proj2 (condition_directive condition.po [] _ wf_stale
                    ltac:(le_computed))).
  - exact (proj2 (condition_directive condition.pe [] _ wf_stale
                    ltac:(le_computed))).
  - exact (proj2 (condition_directive condition.p [] _ wf_stale
                    ltac:(le_computed))).
  - exact (proj2 (condition_directive condition.m [] _ wf_stale
                    ltac:(le_computed))).
Defined.

Lemma relative_address_examples :
  wf (output_buff_new stale)
  /\ (exists o',
        on_format_char "D"
          {| args := [arg_int (-5)]; out := output_buff_new stale |}
        = Done (tt, {| args := []; out := o' |})
        /\ written o' = lit "$-5")
  /\ (exists o',
        on_format_char "D"
          {| args := [arg_int 5]; out := output_buff_new stale |}
        = Done (tt, {| args := []; out := o' |})
        /\ written o' = lit "$+5")
  /\ (exists o',
        on_format_char "D"
          {| args := [arg_int 0]; out := output_buff_new stale |}
        = Done (tt, {| args := []; out := o' |})
        /\ written o' = lit "$+0")
  /\ (exists o',
        on_format_char "D"
          {| args := [arg_int (-2147483648)]; out := output_buff_new stale |}
        = Done (tt, {| args := []; out := o' |})
        /\ written o' = lit "$-2147483648").
Proof.
  split; [exact wf_stale|]. repeat apply conj.
  - exact (proj2 (proj2 (relative_address_directive (-5) [] _
                           ltac:(lia) wf_stale ltac:(le_computed)))).
  - exact (proj2 (proj2 (relative_address_directive 5 [] _
                           ltac:(lia) wf_stale ltac:(le_computed)))).
  - exact (proj2 (proj2 (relative_address_directive 0 [] _
                           ltac:(lia) wf_stale ltac:(le_computed)))).
  - exact (proj2 (proj2 (relative_address_directive (-2147483648) [] _
                           ltac:(lia) wf_stale ltac:(le_computed)))).
Defined.

Lemma block_transfer_example :
  wf (output_buff_new stale)
  /\ (exists o',
        on_format_char "L"
          {| args := [arg_block_ld block_ld.ldi];
             out := output_buff_new stale |}
        = Done (tt, {| args := []; out := o' |})
        /\ written o' = lit "ldi")
  /\ (exists o',
        on_format_char "L"
          {| args := [arg_block_ld block_ld.ldd];
             out := output_buff_new stale |}
        = Done (tt, {| args := []; out := o' |})
        /\ written o' = lit "ldd")
  /\ (exists o',
        on_format_char "L"
          {| args := [arg_block_ld block_ld.ldir];
             out := output_buff_new stale |}
        = Done (tt, {| args := []; out := o' |})
        /\ written o' = lit "ldir")
  /\ (exists o',
        on_format_char "L"
          {| args := [arg_block_ld block_ld.lddr];
             out := output_buff_new stale |}
        = Done (tt, {| args := []; out := o' |})
        /\ written o' = lit "lddr").
Proof.
  split; [exact wf_stale|]. repeat apply conj.
  - exact (proj2 (block_transfer_directive block_ld.ldi [] _ wf_stale
                    ltac:(le_computed))).
  - exact (proj2 (block_transfer_directive block_ld.ldd [] _ wf_stale
                    ltac:(le_computed))).
  - exact (proj2 (block_transfer_directive block_ld.ldir [] _ wf_stale
                    ltac:(le_computed))).
  - exact (proj2 (block_transfer_directive block_ld.lddr [] _ wf_stale
                    ltac:(le_computed))).
Defined.

Lemma eleven_arguments_consumed :
  scan mixed_fmt
    {| args := mixed_args ++ [arg_int 7]; out := output_buff_new stale |}
  = Done (tt, surplus_state)
  /\ exists used,
      mixed_args ++ [arg_int 7] = used ++ [arg_int 7]
      /\ length used = 11%nat.
Proof.
  split; [exact surplus_scan|].
  exact (scan_consumes_arity mixed_fmt _ _ surplus_state surplus_scan).
Defined.

Lemma twelfth_argument_ignored :
  args mixed_state = []
  /\ on_format_impl mixed_fmt (mixed_args ++ [arg_int 7]) stale
       ([] : list (list ascii))
     = on_format_impl mixed_fmt mixed_args stale [].
Proof.
  split; [reflexivity|].
  exact (surplus_arguments_ignored mixed_fmt mixed_args [arg_int 7] stale
           ([] : list (list ascii)) mixed_state mixed_scan eq_refl).
Defined.

Lemma scan_in_two_parts :
  Forall (fun c => c <> NUL) (list_ascii_of_string "AR,")
  /\ scan ("AR," ++ "P;NWCDL")
       {| args := mixed_args; out := output_buff_new stale |}
     = (scan "AR,";;; scan "P;NWCDL")
         {| args := mixed_args; out := output_buff_new stale |}.
Proof.
  assert (H : Forall (fun c => c <> NUL) (list_ascii_of_string "AR,"))
    by (repeat constructor; discriminate).
  split; [exact H|].
  exact (scan_append "AR," "P;NWCDL" _ H).
Defined.

Lemma array_after_ld :
  Z.of_nat (length stale) = max_size
  /\ exists line,
      [lit "ld a,(ix-3)"]
      = on_output (line ++ NUL :: drop (S (length line)) stale)
          ([] : list (list ascii))
      /\ Forall (fun c => c <> NUL) line
      /\ (length line <= 31)%nat.
Proof.
  split; [reflexivity|].
  exact (buffer_after_call ld_fmt ld_args stale ([] : list (list ascii))
           [lit "ld a,(ix-3)"] eq_refl ld_run).
Defined.

Lemma mixed_line_length :
  Z.of_nat (length stale) = max_size
  /\ (10 <= 31)%nat
  /\ exists buf,
      [lit "suba,sp;0xff0x0000pe$+0ldi"]
      = on_output buf ([] : list (list ascii))
      /\ (10 <= length (c_str buf) <= 120)%nat.
Proof.
  split; [reflexivity|].
  exact (line_length_bounds mixed_fmt mixed_args stale ([] : list (list ascii))
           [lit "suba,sp;0xff0x0000pe$+0ldi"] eq_refl mixed_run).
Defined.

Lemma outcomes_by_length :
  Z.of_nat (length stale) = max_size
  /\ (exists buf,
        on_format_impl mixed_fmt mixed_args stale ([] : list (list ascii))
        = Done (on_output buf [])
        /\ c_str buf = lit "suba,sp;0xff0x0000pe$+0ldi")
  /\ on_format_impl fmt_32 [] stale ([] : list (list ascii)) = AssertionFailed
  /\ on_format_impl mixed_fmt mixed_args stale ([] : list (list ascii))
     <> Undefined.
Proof.
  split; [reflexivity|]. repeat apply conj.
  - exact (proj1 (matching_call_outcome mixed_fmt mixed_args [] _ stale
                    ([] : list (list ascii)) mixed_render eq_refl)
             ltac:(vm_compute; lia)).
  - exact (proj1 (proj2 (matching_call_outcome fmt_32 [] [] _ stale
                           ([] : list (list ascii)) fmt_32_render eq_refl))
             ltac:(vm_compute; lia)).
  - exact (proj2 (proj2 (matching_call_outcome mixed_fmt mixed_args [] _ stale
                           ([] : list (list ascii)) mixed_render eq_refl))).
Defined.

End MoreInstances.
